(** * Heightmap synthesis of the heightmap viewer ([src/assets/main.js])

    A shallow embedding of the numeric core of [main.js]: the array method
    [normaliseBetween], the octave noise [Noise] nested in
    [Terrain.generate], [Terrain.generate] itself, the amplitude schedule
    built by [updateVars], and the level of detail read from the URL hash;
    then [updateSeed], the presentation mode of [update], the pixels of
    [Interface.updateHeightmap] and [Interface.randomColour].

    Modelling conventions.
    - A JavaScript number is a value of [num]: an exact rational, one of
      the two infinities, or NaN.  Arithmetic follows IEEE 754 on the
      special values (x/0, 0/0, Infinity - Infinity, 0 * Infinity, ...);
      rounding is not modelled, and zero carries no sign (every zero is +0).
      Statements are chosen so that rounding does not change them; where
      rounding decides, [normaliseBetween_double] runs the same formula on
      binary64 floating-point numbers.
    - A JavaScript array of numbers is a [list num]; its length is not
      bounded.
    - [Math.pow], the simplex noise [noise2D] with its seeding, the values
      of [Math.random] and the conversion of a string to a number are
      library code outside the repository: they are parameters of the
      development.
    - The rendering side (Three.js mesh, canvases, dat.gui) is left out,
      except for the count of the turns that [update] gives to the mesh. *)

From Stdlib Require Import QArith Qcanon Qround ZArith Lia Lqa String Ascii.
From Stdlib Require Import Floats.PrimFloat.
From stdpp Require Import base decidable list numbers.

Local Open Scope Qc_scope.

(* ================================================================== *)
(** ** JavaScript numbers *)
(* ================================================================== *)

Module Num.

Inductive num : Type :=
  | Fin (q : Qc)   (* a finite number *)
  | PInf           (* Infinity *)
  | NInf           (* -Infinity *)
  | NaN.

#[global] Instance num_eq_dec : EqDecision num.
Proof. solve_decision. Defined.

(** An integer seen as a number. *)
Definition ofZ (z : Z) : num := Fin (Q2Qc (inject_Z z)).

(** Sign of a number as a [comparison] with zero; NaN has none ([Eq] is
    only consulted on non-NaN arguments). *)
Definition sign (a : num) : comparison :=
  match a with
  | Fin q => q ?= 0
  | PInf => Gt
  | NInf => Lt
  | NaN => Eq
  end.

Definition sign_mul (s t : comparison) : comparison :=
  match s, t with
  | Eq, _ | _, Eq => Eq
  | Gt, Gt | Lt, Lt => Gt
  | _, _ => Lt
  end.

(** The infinity of a given sign; a zero sign stands for an indeterminate
    form (0 * Infinity, 0 / 0) and gives NaN. *)
Definition inf_of (s : comparison) : num :=
  match s with
  | Gt => PInf
  | Lt => NInf
  | Eq => NaN
  end.

Definition neg (a : num) : num :=
  match a with
  | Fin q => Fin (- q)
  | PInf => NInf
  | NInf => PInf
  | NaN => NaN
  end.

(** [a + b] *)
Definition add (a b : num) : num :=
  match a, b with
  | NaN, _ | _, NaN => NaN
  | Fin p, Fin q => Fin (p + q)
  | PInf, NInf | NInf, PInf => NaN
  | PInf, _ | _, PInf => PInf
  | NInf, _ | _, NInf => NInf
  end.

(** [a - b] *)
Definition sub (a b : num) : num := add a (neg b).

(** [a * b] *)
Definition mul (a b : num) : num :=
  match a, b with
  | NaN, _ | _, NaN => NaN
  | Fin p, Fin q => Fin (p * q)
  | _, _ => inf_of (sign_mul (sign a) (sign b))
  end.

(** [a / b] *)
Definition div (a b : num) : num :=
  match a, b with
  | NaN, _ | _, NaN => NaN
  | Fin p, Fin q =>
      if decide (q = 0) then inf_of (sign a) else Fin (p / q)
  | Fin _, _ => Fin 0
  | _, Fin q =>
      if decide (q = 0) then a else inf_of (sign_mul (sign a) (sign b))
  | _, _ => NaN
  end.

(** [a < b] and [a <= b]; false as soon as one side is NaN. *)
Definition ltb (a b : num) : bool :=
  match a, b with
  | NaN, _ | _, NaN => false
  | Fin p, Fin q => bool_decide (p < q)
  | NInf, NInf | PInf, PInf => false
  | NInf, _ | _, PInf => true
  | _, _ => false
  end.

Definition leb (a b : num) : bool :=
  match a, b with
  | NaN, _ | _, NaN => false
  | Fin p, Fin q => bool_decide (p <= q)
  | NInf, _ | _, PInf => true
  | _, _ => false
  end.

(** [Math.min(...xs)]: Infinity without arguments, NaN as soon as one
    argument is NaN, the least argument otherwise. *)
Definition min2 (lowest n : num) : num :=
  match lowest, n with
  | NaN, _ | _, NaN => NaN
  | _, _ => if ltb n lowest then n else lowest
  end.

Definition Math_min (xs : list num) : num := foldl min2 PInf xs.

(** [Math.max(...xs)]: -Infinity without arguments, NaN as soon as one
    argument is NaN, the greatest argument otherwise. *)
Definition max2 (highest n : num) : num :=
  match highest, n with
  | NaN, _ | _, NaN => NaN
  | _, _ => if ltb highest n then n else highest
  end.

Definition Math_max (xs : list num) : num := foldl max2 NInf xs.

(** Sum of a sequence of numbers. *)
Fixpoint sum (xs : list num) : num :=
  match xs with
  | [] => Fin 0
  | x :: xs' => add x (sum xs')
  end.

End Num.
Export Num.

Declare Scope num_scope.
Delimit Scope num_scope with num.
Bind Scope num_scope with num.
Infix "+" := add : num_scope.
Infix "-" := sub : num_scope.
Infix "*" := mul : num_scope.
Infix "/" := div : num_scope.
Infix "<=?" := leb : num_scope.
Infix "<?" := ltb : num_scope.

(* ================================================================== *)
(** ** [Array.prototype.normaliseBetween] *)
(* ================================================================== *)

(** [this.normaliseBetween(min, max)] *)
Definition normaliseBetween (this : list num) (min max : num) : list num :=
  let amin := Math_min this in
  let amax := Math_max this in
  (fun v => ((v - amin) * (max - min)) / (amax - amin) + min)%num <$> this.

(** *** The same method on binary64 numbers *)

(** [Math.min] and [Math.max] of two doubles: NaN as soon as one side is
    NaN, and [-0] counts as less than [+0]. *)
Definition is_negative_zero (x : float) : bool :=
  match PrimFloat.classify x with
  | FloatClass.NZero => true
  | _ => false
  end.

Definition min2_double (lowest n : float) : float :=
  if PrimFloat.is_nan lowest || PrimFloat.is_nan n then PrimFloat.nan
  else if PrimFloat.ltb n lowest then n
  else if PrimFloat.eqb n lowest && is_negative_zero n then n
  else lowest.

Definition max2_double (highest n : float) : float :=
  if PrimFloat.is_nan highest || PrimFloat.is_nan n then PrimFloat.nan
  else if PrimFloat.ltb highest n then n
  else if PrimFloat.eqb n highest && is_negative_zero highest then n
  else highest.

Definition Math_min_double (xs : list float) : float :=
  foldl min2_double PrimFloat.infinity xs.

Definition Math_max_double (xs : list float) : float :=
  foldl max2_double PrimFloat.neg_infinity xs.

(** [this.normaliseBetween(min, max)], every operation rounded to the
    nearest double as the engine does. *)
Definition normaliseBetween_double (this : list float) (min max : float) : list float :=
  let amin := Math_min_double this in
  let amax := Math_max_double this in
  (fun v => PrimFloat.add
              (PrimFloat.div (PrimFloat.mul (PrimFloat.sub v amin) (PrimFloat.sub max min))
                             (PrimFloat.sub amax amin))
              min) <$> this.

(* ================================================================== *)
(** ** [Terrain] *)
(* ================================================================== *)

Module Terrain.

(** The fields of the [Terrain] object that the synthesis reads and
    writes.  [lod] is an integer, as [init] receives it; [noise2D] is the
    seeded simplex noise installed by [updateSeed]. *)
Record t : Type := mk {
  heightmap : list num;
  lod : Z;
  noise2D : num -> num -> num
}.

(** [new Array(n)]: [n] empty slots.  A slot that was never written reads
    as [undefined], which arithmetic turns into NaN. *)
Definition new_Array (n : Z) : list num := replicate (Z.to_nat n) NaN.

Section Generate.

Variable Math_pow : num -> num -> num.

Section Noise.

Variable noise2D : num -> num -> num.
Variable amplitudes : list num.
Variable exponent : num.

(** The inner [nv(nx, ny)] of [Noise]. *)
Definition nv (nx ny : num) : num :=
  (noise2D nx ny / ofZ 2 + Fin (Q2Qc (1 # 2)))%num.

(** One turn of [for (const amp of amplitudes)], on the pair
    [(e, ampTotal)]. *)
Definition Noise_step (x y : num) (acc : num * num) (amp : num) : num * num :=
  let '(e, ampTotal) := acc in
  let ampDiv := (ofZ 1 / amp)%num in
  let ampTotal := (ampTotal + ampDiv)%num in
  let e := (e + ampDiv * nv (x * amp) (y * amp))%num in
  (e, ampTotal).

(** [Noise(x, y)] *)
Definition Noise (x y : num) : num :=
  let '(e, ampTotal) := foldl (Noise_step x y) (ofZ 0, ofZ 0) amplitudes in
  Math_pow (e / ampTotal)%num exponent.

End Noise.

(** The body of [for (let i = 0; i < lod2; i++)] in [generate], which
    computes the value written to [nvs[i]]: [%] is the remainder that
    takes the sign of the dividend, and [~~(i / lod)] truncates the
    quotient toward zero (the 32-bit wrap of [~~] is out of reach of the
    indices of an array). *)
Definition generate_cell (this : t) (frequency exponent : num)
    (amplitudes : list num) (i : Z) : num :=
  let x := Z.rem i (lod this) in
  let y := Z.quot i (lod this) in
  let nx := (ofZ x / (ofZ (lod this) / frequency))%num in
  let ny := (ofZ y / (ofZ (lod this) / frequency))%num in
  Noise (noise2D this) amplitudes exponent nx ny.

(** [this.generate(seed, frequency, exponent, amplitudes, normalise)];
    the result is [this] after the assignment to [this.heightmap]. *)
Definition generate (this : t) (seed frequency exponent : num)
    (amplitudes : list num) (normalise : bool) : t :=
  let lod2 := (lod this * lod this)%Z in
  let nvs :=
    foldl (fun nvs i =>
             <[Z.to_nat i := generate_cell this frequency exponent amplitudes i]> nvs)
          (new_Array lod2) (seqZ 0 lod2) in
  mk (if normalise then normaliseBetween nvs (ofZ 0) (ofZ 1) else nvs)
     (lod this) (noise2D this).

End Generate.
End Terrain.

(* ================================================================== *)
(** ** [Interface.vars] and [updateVars] *)
(* ================================================================== *)

Module Interface.

(** The numeric entries of [Interface.vars]; [octv] is a whole number
    (slider step 1, or [Math.floor(...) + 1] in presentation mode). *)
Record vars : Type := mk {
  octv : Z;
  freq : num;
  expn : num;
  ampl : num;
  seed : num;
  norm : bool
}.

End Interface.

(** [amps.push(amps[i - 1] + ampl)].  Reading past the end of [amps] would
    give [undefined], that is NaN once added to [ampl]. *)
Definition amps_push (ampl : num) (amps : list num) (i : Z) : list num :=
  amps ++ [(default NaN (amps !! Z.to_nat (i - 1)) + ampl)%num].

(** The amplitude array of [updateVars]:
    [let amps = [1]; for (let i = 1; i < octv; i++) amps.push(amps[i - 1] + ampl)]. *)
Definition amps (octv : Z) (ampl : num) : list num :=
  foldl (amps_push ampl) [ofZ 1] (seqZ 1 (octv - 1)).

(** [updateVars()], on the terrain it regenerates. *)
Definition updateVars (Math_pow : num -> num -> num)
    (vars : Interface.vars) (terrain : Terrain.t) : Terrain.t :=
  Terrain.generate Math_pow terrain
    (Interface.seed vars) (Interface.freq vars) (Interface.expn vars)
    (amps (Interface.octv vars) (Interface.ampl vars)) (Interface.norm vars).

(* ================================================================== *)
(** ** Level of detail from the URL *)
(* ================================================================== *)

(** [s.substring(1)] *)
Definition substring1 (s : string) : string :=
  match s with
  | EmptyString => EmptyString
  | String _ rest => rest
  end.

(** [const lod = Math.max(128, Math.min(window.location.hash.substring(1) || 128, 512))].
    The empty string is the only falsy string; any other goes through the
    string-to-number conversion [ToNumber] when [Math.min] reads it. *)
Definition lod (ToNumber : string -> num) (hash : string) : num :=
  let s := substring1 hash in
  let h := match s with
           | EmptyString => ofZ 128
           | _ => ToNumber s
           end in
  Math_max [ofZ 128; Math_min [h; ofZ 512]].

(** [Math.pow] at whole exponents [0, 1, 2, ...], by repeated
    multiplication; NaN at any other exponent, where the result is not a
    rational in general.  This is the instance on which the definitions
    above are run. *)
Fixpoint pown (b : num) (n : nat) : num :=
  match n with
  | O => ofZ 1
  | S k => (b * pown b k)%num
  end.

Definition pow_whole (b e : num) : num :=
  match e with
  | Fin x =>
      if decide (Qden x = 1%positive /\ (0 <= Qnum x)%Z)
      then pown b (Z.to_nat (Qnum x))
      else NaN
  | _ => NaN
  end.

(** The conversion of a string to a number, restricted to strings of
    decimal digits: the empty string is 0, and any string with another
    character is answered NaN here.  This is the instance on which [lod]
    is run. *)
Definition digit_of (c : Ascii.ascii) : option Z :=
  let n := Z.of_N (Ascii.N_of_ascii c) in
  if decide (48 <= n <= 57)%Z then Some (n - 48)%Z else None.

Fixpoint digits_value (acc : Z) (s : string) : option Z :=
  match s with
  | EmptyString => Some acc
  | String c rest =>
      match digit_of c with
      | Some d => digits_value (10 * acc + d) rest
      | None => None
      end
  end.

Definition ToNumber_digits (s : string) : num :=
  match digits_value 0 s with
  | Some z => ofZ z
  | None => NaN
  end.

(** A terrain on which the definitions are run: side 2, and a noise
    function with values in [{-1, 0, 1}] (the sign of [y - x], 0 when the
    two cannot be compared). *)
Definition sample_noise (x y : num) : num :=
  if (x <? y)%num then ofZ 1 else if (y <? x)%num then ofZ (-1) else ofZ 0.

Definition sample_terrain (previous : list num) : Terrain.t :=
  Terrain.mk previous 2 sample_noise.

(* ================================================================== *)
(** ** Vocabulary of the properties *)
(* ================================================================== *)

(** [m] is the minimum (maximum) of the sequence [xs], for the order
    [<=] of JavaScript. *)
Definition is_minimum (m : num) (xs : list num) : Prop :=
  m ∈ xs /\ forall v, v ∈ xs -> (m <=? v)%num = true.

Definition is_maximum (m : num) (xs : list num) : Prop :=
  m ∈ xs /\ forall v, v ∈ xs -> (v <=? m)%num = true.

(** A sequence with at least two distinct values. *)
Definition non_constant {A : Type} (xs : list A) : Prop :=
  exists a b, a ∈ xs /\ b ∈ xs /\ a <> b.

(** A number of the closed interval [[lo, hi]]. *)
Definition between (lo hi : Qc) (v : num) : Prop :=
  exists q, v = Fin q /\ lo <= q <= hi.

(** The affine map that [normaliseBetween] applies to each value, on
    finite numbers: [amin] and [amax] are the extremes of the array. *)
Definition rescale (amin amax lo hi v : Qc) : Qc :=
  (v - amin) * (hi - lo) / (amax - amin) + lo.

(** [Number.MAX_VALUE], the greatest finite double. *)
Definition Number_MAX_VALUE : Qc := Q2Qc (inject_Z ((2 ^ 53 - 1) * 2 ^ 971)).

(** The differences between two entries stay within the finite doubles:
    no subtraction of [normaliseBetween] overflows. *)
Definition spread_fits (values : list Qc) : Prop :=
  Forall (fun a => Forall (fun b => a - b <= Number_MAX_VALUE) values) values.

(** Maximum and minimum of two rationals. *)
Definition Qcmax (a b : Qc) : Qc := if decide (a <= b) then b else a.
Definition Qcmin (a b : Qc) : Qc := if decide (a <= b) then a else b.

(** How a call ends: normally with a value, or with a thrown error. *)
Inductive completion (A : Type) : Type :=
  | Normal (a : A)
  | Throw (reason : string).
Arguments Normal {A} a.
Arguments Throw {A} reason.

(** A call of [Terrain.generate], with the errors that the engine can
    raise in it.  The body has no [throw] statement and no test on its
    parameters, and [amplitudes] is an array; but [new Array(lod2)] throws
    a RangeError when [lod2] is not an array length (for a whole [lod]:
    when [lod * lod] exceeds [2^32 - 1]), and the calls [Math.min(...this)]
    and [Math.max(...this)] of [normaliseBetween] pass every element as an
    argument, which the engine refuses beyond [max_arguments], a limit of
    its own.  Otherwise the call completes normally with the terrain that
    [generate] leaves. *)
Definition call_generate (max_arguments : Z)
    (Math_pow : num -> num -> num) (this : Terrain.t)
    (seed frequency exponent : num) (amplitudes : list num)
    (normalise : bool) : completion Terrain.t :=
  let lod2 := (Terrain.lod this * Terrain.lod this)%Z in
  if decide (2 ^ 32 - 1 < lod2)%Z then
    Throw "RangeError: Invalid array length"
  else if normalise && bool_decide (max_arguments < lod2)%Z then
    Throw "RangeError: Maximum call stack size exceeded"
  else
    Normal (Terrain.generate Math_pow this seed frequency exponent amplitudes normalise).

(** The parameter combinations that the specification calls invalid. *)
Definition invalid_parameters (lod : Z) (frequency : num) : Prop :=
  (lod < 1)%Z \/ (frequency <=? ofZ 0)%num = true.

(** An implementation that rejects every invalid parameter combination. *)
Definition rejects_invalid
    (run : Terrain.t -> num -> num -> num -> list num -> bool -> completion Terrain.t) : Prop :=
  forall this seed frequency exponent amplitudes normalise,
    invalid_parameters (Terrain.lod this) frequency ->
    exists reason, run this seed frequency exponent amplitudes normalise = Throw reason.

(* ================================================================== *)
(** ** Whole numbers, [~~], [Math.floor] and [Math.round] *)
(* ================================================================== *)

(** A whole number as a rational. *)
Definition QcZ (z : Z) : Qc := Q2Qc (inject_Z z).

(** The integer part of a rational, toward zero. *)
Definition truncate (q : Qc) : Z := Z.quot (Qnum q) (Zpos (Qden q)).

(** The conversion to a signed 32-bit integer that [~~x] and [x << 0]
    apply to [x]: NaN and the infinities give 0, a finite number is
    truncated toward zero and wrapped modulo 2^32 into [-2^31, 2^31). *)
Definition ToInt32 (a : num) : Z :=
  match a with
  | Fin q => ((truncate q + 2 ^ 31) mod 2 ^ 32 - 2 ^ 31)%Z
  | _ => 0%Z
  end.

(** The conversion applied by a store into a [Uint8Array]. *)
Definition ToUint8 (z : Z) : Z := (z mod 256)%Z.

(** [Math.floor(a)] *)
Definition Math_floor (a : num) : num :=
  match a with
  | Fin q => ofZ (Qfloor q)
  | _ => a
  end.

(** [Math.round(a)]: the nearest whole number, the upper one on a tie. *)
Definition Math_round (a : num) : num :=
  match a with
  | Fin q => ofZ (Qfloor (q + Q2Qc (1 # 2)))
  | _ => a
  end.

(** The whole number held by a number ([Interface.octv] is kept as an
    integer). *)
Definition whole (a : num) : Z :=
  match a with
  | Fin q => Qfloor q
  | _ => 0%Z
  end.

(** [a >= b] *)
Definition geb (a b : num) : bool := (b <=? a)%num.

(* ================================================================== *)
(** ** [Interface.updateHeightmap] *)
(* ================================================================== *)

(** One turn of the loop of [updateHeightmap]: the four stores of the
    pixel [i].  A store past the end of a typed array is ignored. *)
Definition updateHeightmap_turn (heightmap : list num) (rgba : list Z) (i : nat) : list Z :=
  let col := ToInt32 (default NaN (heightmap !! i) * ofZ 255)%num in
  let stride := (i * 4)%nat in
  <[(stride + 3)%nat := ToUint8 255]>
    (<[(stride + 2)%nat := ToUint8 col]>
       (<[(stride + 1)%nat := ToUint8 col]>
          (<[stride := ToUint8 col]> rgba))).

(** The array [rgba] that [updateHeightmap(heightmap)] hands to the
    canvas; [new Uint8Array(n)] is filled with zeros. *)
Definition updateHeightmap (heightmap : list num) : list Z :=
  foldl (updateHeightmap_turn heightmap)
        (replicate (4 * length heightmap) 0%Z) (seq 0 (length heightmap)).

(* ================================================================== *)
(** ** [Interface.randomColour] *)
(* ================================================================== *)

(** The digit of a value below 16, in lower case. *)
Definition hex_digit (d : Z) : ascii :=
  ascii_of_N (Z.to_N (if (d <? 10)%Z then 48 + d else 87 + d)).

(** The hexadecimal digits of a non-negative integer, without leading
    zero; [fuel] bounds their number. *)
Fixpoint hex_digits (fuel : nat) (n : Z) : list ascii :=
  match fuel with
  | O => []
  | S fuel' =>
      if (n <? 16)%Z then [hex_digit n]
      else hex_digits fuel' (n / 16) ++ [hex_digit (n mod 16)]
  end.

(** [n.toString(16)] for an integer [n]. *)
Definition toString16 (n : Z) : string :=
  if (n <? 0)%Z
  then String "-" (string_of_list_ascii (hex_digits (S (Z.to_nat (Z.log2 (- n)))) (- n)))
  else string_of_list_ascii (hex_digits (S (Z.to_nat (Z.log2 n))) n).

(** [s.padStart(target, pad)] for a one-character [pad]. *)
Definition padStart (target : nat) (pad : ascii) (s : string) : string :=
  (string_of_list_ascii (replicate (target - String.length s) pad) ++ s)%string.

(** [randomColour()], for the value [r] that [Math.random()] returns:
    ["#" + (r * 0xFFFFFF << 0).toString(16).padStart(6, "0")]. *)
Definition randomColour (r : Qc) : string :=
  String "#" (padStart 6 "0" (toString16 (ToInt32 (Fin r * ofZ 16777215)%num))).

(* ================================================================== *)
(** ** [updateSeed] and [update] *)
(* ================================================================== *)

(** [updateSeed()]: [seeded s] stands for [createNoise2D(Alea(s))]. *)
Definition updateSeed (Math_pow : num -> num -> num)
    (seeded : num -> num -> num -> num)
    (vars : Interface.vars) (terrain : Terrain.t) : Terrain.t :=
  updateVars Math_pow vars
    (Terrain.mk (Terrain.heightmap terrain) (Terrain.lod terrain)
       (seeded (Interface.seed vars))).

Module Page.

(** What [update] reads and writes: [Interface.vars] with its
    presentation flag [prst], [Interface.timestamp], [Terrain], the
    number of values that [Math.random] has handed out so far, and the
    number of turns of [Math.PI / 1000] about its Y axis that
    [Terrain.mesh] has received. *)
Record t : Type := mk {
  vars : Interface.vars;
  prst : bool;
  timestamp : num;
  terrain : Terrain.t;
  drawn : nat;
  rotations : nat
}.

(** [Terrain.mesh.rotateY(Math.PI / 1000)] *)
Definition rotateY (page : t) : t :=
  mk (vars page) (prst page) (timestamp page) (terrain page) (drawn page)
     (S (rotations page)).

End Page.

(** [Math.max(1, Math.round((r * 10) * 2) / 2)] *)
Definition random_half_step (r : Qc) : num :=
  Math_max [ofZ 1; (Math_round ((Fin r * ofZ 10) * ofZ 2) / ofZ 2)%num].

(** [update(time)]; [random n] is the value of the [n]-th call to
    [Math.random()]. *)
Definition update (Math_pow : num -> num -> num)
    (seeded : num -> num -> num -> num) (random : nat -> Qc)
    (time : num) (page : Page.t) : Page.t :=
  if Page.prst page then
    let page := Page.rotateY page in
    if geb (time - Page.timestamp page)%num (ofZ 5000) then
      let n := Page.drawn page in
      let seed := (Math_floor (Fin (random n) * ofZ 1000) + ofZ 1)%num in
      let octv := whole (Math_floor (Fin (random (n + 1)%nat) * ofZ 10) + ofZ 1)%num in
      let ampl := random_half_step (random (n + 2)%nat) in
      let freq := random_half_step (random (n + 3)%nat) in
      let expn := random_half_step (random (n + 4)%nat) in
      let vars := Interface.mk octv freq expn ampl seed
                    (Interface.norm (Page.vars page)) in
      Page.mk vars (Page.prst page) time
        (updateSeed Math_pow seeded vars (Page.terrain page)) (n + 5)%nat
        (Page.rotations page)
    else page
  else page.

(** The entry of rank [i] of the schedule of step [a]. *)
Definition schedule_entry (a : Qc) (i : Z) : Qc := 1 + QcZ i * a.

(** The four bytes that [updateHeightmap] stores for a height [v]. *)
Definition grey_pixel (v : num) : list Z :=
  let col := ToUint8 (ToInt32 (v * ofZ 255)%num) in
  [col; col; col; ToUint8 255].

(** The [k] low hexadecimal digits of [n], leading zeros included. *)
Fixpoint hex_fixed (k : nat) (n : Z) : list ascii :=
  match k with
  | O => []
  | S k' => hex_fixed k' (n / 16) ++ [hex_digit (n mod 16)]
  end.

(** Reading hexadecimal digits back. *)
Definition digit_value (c : ascii) : Z :=
  let m := Z.of_N (N_of_ascii c) in
  if (m <? 58)%Z then (m - 48)%Z else (m - 87)%Z.

Definition hex_value (digits : list ascii) : Z :=
  foldl (fun acc c => (16 * acc + digit_value c)%Z) 0%Z digits.

(* ================================================================== *)
(** ** Proof tools *)
(* ================================================================== *)

(** Goals on the order of [Qc] are sent to [Q], where [lra] and [nra]
    apply. *)
Ltac to_Q :=
  repeat match goal with
         | H : Qcle _ _ |- _ => revert H
         | H : Qclt _ _ |- _ => revert H
         | H : Qcle _ _ /\ Qcle _ _ |- _ => revert H
         end;
  unfold Qcle, Qclt, Qcminus, Qcplus, Qcopp, Qcmult;
  cbn [this Q2Qc];
  rewrite ?Qred_correct;
  intros.

(** Closed decidable facts are settled by evaluation. *)
Ltac by_compute := apply (bool_decide_unpack _); vm_compute; exact I.

(* ================================================================== *)
(** ** Arithmetic of [num] *)
(* ================================================================== *)

Section NumFacts.

Implicit Types a b c : num.
Implicit Types p q : Qc.

Lemma ofZ_0 : ofZ 0 = Fin 0.
Proof. reflexivity. Qed.

Lemma ofZ_1 : ofZ 1 = Fin 1.
Proof. reflexivity. Qed.

Lemma Qc_1_neq_0 : (1 : Qc) <> 0.
Proof. discriminate. Qed.

Lemma add_comm a b : (a + b)%num = (b + a)%num.
Proof. destruct a, b; simpl; try reflexivity. f_equal; ring. Qed.

Lemma add_assoc a b c : (a + (b + c))%num = (a + b + c)%num.
Proof. destruct a, b, c; simpl; try reflexivity. f_equal; ring. Qed.

Lemma add_0_l a : (ofZ 0 + a)%num = a.
Proof. rewrite ofZ_0. destruct a; simpl; try reflexivity. f_equal; ring. Qed.

Lemma mul_1_r a : (a * ofZ 1)%num = a.
Proof. rewrite ofZ_1. destruct a; simpl; try reflexivity. f_equal; ring. Qed.

Lemma mul_1_l a : (ofZ 1 * a)%num = a.
Proof. rewrite ofZ_1. destruct a; simpl; try reflexivity. f_equal; ring. Qed.

Lemma div_1_r a : (a / ofZ 1)%num = a.
Proof.
  rewrite ofZ_1. destruct a; simpl; try reflexivity;
    destruct (decide (1 = 0)) as [E | _];
    try (exfalso; exact (Qc_1_neq_0 E)); try reflexivity.
  f_equal. field. exact Qc_1_neq_0.
Qed.

Lemma div_Fin p q : q <> 0 -> (Fin p / Fin q)%num = Fin (p / q).
Proof. intros Hq. simpl. destruct (decide (q = 0)); [contradiction | reflexivity]. Qed.

Lemma leb_Fin p q : (Fin p <=? Fin q)%num = true <-> p <= q.
Proof. simpl. apply bool_decide_eq_true. Qed.

End NumFacts.

(* ================================================================== *)
(** ** [Math.min] and [Math.max] on finite numbers *)
(* ================================================================== *)

Section MinMax.

Implicit Types q m : Qc.
Implicit Types qs : list Qc.

Lemma foldl_min2_Fin qs m :
  exists m', foldl min2 (Fin m) (Fin <$> qs) = Fin m'
             /\ m' <= m
             /\ (m' = m \/ m' ∈ qs)
             /\ (forall q, q ∈ qs -> m' <= q).
Proof.
  revert m. induction qs as [| q qs IH]; intros m; simpl.
  - exists m. repeat split; [apply Qcle_refl | by left | intros q Hq; inversion Hq].
  - destruct (Qclt_le_dec q m) as [Hlt | Hle].
    + rewrite bool_decide_eq_true_2 by assumption.
      destruct (IH q) as (m' & Heq & Hm & Hin & Hall).
      exists m'. split; [exact Heq |]. repeat split.
      * apply Qcle_trans with q; [assumption | by apply Qclt_le_weak].
      * right. destruct Hin as [-> | Hin]; [left | by right].
      * intros q' Hq'. apply elem_of_cons in Hq' as [-> | Hq']; auto.
    + rewrite bool_decide_eq_false_2 by (by apply Qcle_not_lt).
      destruct (IH m) as (m' & Heq & Hm & Hin & Hall).
      exists m'. split; [exact Heq |]. repeat split; [assumption | |].
      * destruct Hin as [-> | Hin]; [by left | right; by right].
      * intros q' Hq'. apply elem_of_cons in Hq' as [-> | Hq']; auto.
        by apply Qcle_trans with m.
Qed.

Lemma foldl_max2_Fin qs m :
  exists m', foldl max2 (Fin m) (Fin <$> qs) = Fin m'
             /\ m <= m'
             /\ (m' = m \/ m' ∈ qs)
             /\ (forall q, q ∈ qs -> q <= m').
Proof.
  revert m. induction qs as [| q qs IH]; intros m; simpl.
  - exists m. repeat split; [apply Qcle_refl | by left | intros q Hq; inversion Hq].
  - destruct (Qclt_le_dec m q) as [Hlt | Hle].
    + rewrite bool_decide_eq_true_2 by assumption.
      destruct (IH q) as (m' & Heq & Hm & Hin & Hall).
      exists m'. split; [exact Heq |]. repeat split.
      * apply Qcle_trans with q; [by apply Qclt_le_weak | assumption].
      * right. destruct Hin as [-> | Hin]; [left | by right].
      * intros q' Hq'. apply elem_of_cons in Hq' as [-> | Hq']; auto.
    + rewrite bool_decide_eq_false_2 by (by apply Qcle_not_lt).
      destruct (IH m) as (m' & Heq & Hm & Hin & Hall).
      exists m'. split; [exact Heq |]. repeat split; [assumption | |].
      * destruct Hin as [-> | Hin]; [by left | right; by right].
      * intros q' Hq'. apply elem_of_cons in Hq' as [-> | Hq']; auto.
        by apply Qcle_trans with m.
Qed.

(** On a non-empty sequence of finite numbers [Math.min] returns its least
    element. *)
Lemma Math_min_Fin qs :
  qs <> [] ->
  exists m, Math_min (Fin <$> qs) = Fin m /\ m ∈ qs /\ forall q, q ∈ qs -> m <= q.
Proof.
  destruct qs as [| q qs]; [done | intros _].
  unfold Math_min. simpl.
  destruct (foldl_min2_Fin qs q) as (m & Heq & Hm & Hin & Hall).
  exists m. split; [exact Heq |]. split.
  - destruct Hin as [-> | Hin]; [left | by right].
  - intros q' Hq'. apply elem_of_cons in Hq' as [-> | Hq']; auto.
Qed.

(** On a non-empty sequence of finite numbers [Math.max] returns its
    greatest element. *)
Lemma Math_max_Fin qs :
  qs <> [] ->
  exists m, Math_max (Fin <$> qs) = Fin m /\ m ∈ qs /\ forall q, q ∈ qs -> q <= m.
Proof.
  destruct qs as [| q qs]; [done | intros _].
  unfold Math_max. simpl.
  destruct (foldl_max2_Fin qs q) as (m & Heq & Hm & Hin & Hall).
  exists m. split; [exact Heq |]. split.
  - destruct Hin as [-> | Hin]; [left | by right].
  - intros q' Hq'. apply elem_of_cons in Hq' as [-> | Hq']; auto.
Qed.

(** The least and the greatest element of a sequence with two distinct
    values differ. *)
Lemma non_constant_spread qs lo hi :
  non_constant qs ->
  (forall q, q ∈ qs -> lo <= q) -> (forall q, q ∈ qs -> q <= hi) ->
  lo < hi.
Proof.
  intros (a & b & Ha & Hb & Hab) Hlo Hhi.
  destruct (Qclt_le_dec lo hi) as [? | Hle]; [assumption | exfalso].
  apply Hab. apply Qcle_antisym.
  - apply Qcle_trans with hi; [auto |]. apply Qcle_trans with lo; auto.
  - apply Qcle_trans with hi; [auto |]. apply Qcle_trans with lo; auto.
Qed.

End MinMax.

(* ================================================================== *)
(** ** [normaliseBetween] on finite numbers *)
(* ================================================================== *)

Section Rescale.

Variables amin amax lo hi : Qc.
Hypothesis spread : amin < amax.

Lemma spread_neq_0 : amax - amin <> 0.
Proof.
  intros E. apply (Qclt_not_eq _ _ spread).
  replace amax with (amax - amin + amin) by ring. rewrite E. ring.
Qed.

Lemma rescale_slope v :
  rescale amin amax lo hi v = (v - amin) * ((hi - lo) * / (amax - amin)) + lo.
Proof. unfold rescale. field. exact spread_neq_0. Qed.

Lemma slope_pos : 0 < / (amax - amin).
Proof.
  assert (H : 0 < amax - amin).
  { to_Q. lra. }
  unfold Qclt in *. unfold Qcinv. cbn [this Q2Qc]. rewrite !Qred_correct.
  apply Qinv_lt_0_compat. exact H.
Qed.

Lemma rescale_amin : rescale amin amax lo hi amin = lo.
Proof. rewrite rescale_slope. ring. Qed.

Lemma rescale_amax : rescale amin amax lo hi amax = hi.
Proof. unfold rescale. field. exact spread_neq_0. Qed.

Lemma rescale_mono v w : lo <= hi -> v <= w -> rescale amin amax lo hi v <= rescale amin amax lo hi w.
Proof.
  intros Hr Hvw. rewrite !rescale_slope.
  assert (Hs : 0 <= (hi - lo) * / (amax - amin)).
  { pose proof slope_pos as Hk. revert Hk. generalize (/ (amax - amin)). intros s Hs.
    to_Q. apply Qmult_le_0_compat; lra. }
  revert Hs. generalize ((hi - lo) * / (amax - amin)). intros s Hs.
  to_Q. nra.
Qed.

End Rescale.

Section Normalise.

Implicit Types qs : list Qc.
Implicit Types lo hi : Qc.

Lemma non_constant_nonempty {A : Type} (xs : list A) : non_constant xs -> xs <> [].
Proof. intros (a & _ & Ha & _) ->. inversion Ha. Qed.

(** On a sequence of finite numbers with two distinct values,
    [normaliseBetween] applies [rescale] between the extremes. *)
Lemma normaliseBetween_Fin qs lo hi :
  non_constant qs ->
  exists amin amax,
    amin ∈ qs /\ amax ∈ qs /\ amin < amax
    /\ (forall q, q ∈ qs -> amin <= q /\ q <= amax)
    /\ normaliseBetween (Fin <$> qs) (Fin lo) (Fin hi)
       = Fin <$> (rescale amin amax lo hi <$> qs).
Proof.
  intros Hnc. pose proof (non_constant_nonempty _ Hnc) as Hne.
  destruct (Math_min_Fin qs Hne) as (amin & Emin & Hmin & Hle).
  destruct (Math_max_Fin qs Hne) as (amax & Emax & Hmax & Hge).
  assert (Hsp : amin < amax) by (by apply (non_constant_spread qs)).
  exists amin, amax. repeat split; auto.
  unfold normaliseBetween. rewrite Emin, Emax, <- !list_fmap_compose.
  apply list_fmap_ext. intros _ v _. unfold compose.
  change (Fin v - Fin amin)%num with (Fin (v - amin)).
  change (Fin hi - Fin lo)%num with (Fin (hi - lo)).
  change (Fin amax - Fin amin)%num with (Fin (amax - amin)).
  change (Fin (v - amin) * Fin (hi - lo))%num with (Fin ((v - amin) * (hi - lo))).
  rewrite div_Fin by (by apply spread_neq_0). reflexivity.
Qed.

(** Length is preserved, whatever the array and the bounds. *)
Lemma normaliseBetween_length (xs : list num) (min max : num) :
  length (normaliseBetween xs min max) = length xs.
Proof. unfold normaliseBetween. apply length_fmap. Qed.

(** Every rescaled value lies between the bounds. *)
Lemma rescale_between amin amax lo hi v :
  amin < amax -> lo <= hi -> amin <= v -> v <= amax ->
  lo <= rescale amin amax lo hi v <= hi.
Proof.
  intros Hsp Hr Hv1 Hv2. split.
  - rewrite <- (rescale_amin amin amax lo hi Hsp) at 1. by apply rescale_mono.
  - rewrite <- (rescale_amax amin amax lo hi Hsp) at 2. by apply rescale_mono.
Qed.

Lemma normaliseBetween_extremes qs lo hi :
  non_constant qs -> lo <= hi ->
  is_minimum (Fin lo) (normaliseBetween (Fin <$> qs) (Fin lo) (Fin hi))
  /\ is_maximum (Fin hi) (normaliseBetween (Fin <$> qs) (Fin lo) (Fin hi)).
Proof.
  intros Hnc Hr.
  destruct (normaliseBetween_Fin qs lo hi Hnc)
    as (amin & amax & Hmin & Hmax & Hsp & Hall & ->).
  split; split.
  - apply list_elem_of_fmap. exists lo. split; [done |].
    apply list_elem_of_fmap. exists amin. split; [| done].
    symmetry. by apply rescale_amin.
  - intros v Hv. apply list_elem_of_fmap in Hv as (r & -> & Hr').
    apply list_elem_of_fmap in Hr' as (q & -> & Hq).
    apply leb_Fin. destruct (Hall q Hq). by apply rescale_between.
  - apply list_elem_of_fmap. exists hi. split; [done |].
    apply list_elem_of_fmap. exists amax. split; [| done].
    symmetry. by apply rescale_amax.
  - intros v Hv. apply list_elem_of_fmap in Hv as (r & -> & Hr').
    apply list_elem_of_fmap in Hr' as (q & -> & Hq).
    apply leb_Fin. destruct (Hall q Hq). by apply rescale_between.
Qed.

(** Relative order is preserved on a sequence with two distinct values. *)
Lemma normaliseBetween_monotone qs lo hi (i j : nat) (vi vj : Qc) :
  non_constant qs -> lo <= hi ->
  qs !! i = Some vi -> qs !! j = Some vj -> vi <= vj ->
  exists oi oj,
    normaliseBetween (Fin <$> qs) (Fin lo) (Fin hi) !! i = Some oi
    /\ normaliseBetween (Fin <$> qs) (Fin lo) (Fin hi) !! j = Some oj
    /\ (oi <=? oj)%num = true.
Proof.
  intros Hnc Hr Hi Hj Hij.
  destruct (normaliseBetween_Fin qs lo hi Hnc)
    as (amin & amax & _ & _ & Hsp & _ & ->).
  exists (Fin (rescale amin amax lo hi vi)), (Fin (rescale amin amax lo hi vj)).
  rewrite !list_lookup_fmap, Hi, Hj. repeat split.
  apply leb_Fin. by apply rescale_mono.
Qed.

(** *** The constant array *)

Lemma ltb_irrefl (a : num) : (a <? a)%num = false.
Proof.
  destruct a; simpl; try reflexivity.
  apply bool_decide_eq_false_2, Qcle_not_lt, Qcle_refl.
Qed.

Lemma min2_idem (a : num) : min2 a a = a.
Proof. unfold min2. rewrite ltb_irrefl. by destruct a. Qed.

Lemma max2_idem (a : num) : max2 a a = a.
Proof. unfold max2. rewrite ltb_irrefl. by destruct a. Qed.

Lemma Math_min_replicate (c : num) (n : nat) : Math_min (replicate (S n) c) = c.
Proof.
  unfold Math_min. cbn [replicate foldl].
  assert (E : min2 PInf c = c) by (by destruct c).
  rewrite E. induction n as [| n IH]; [reflexivity |].
  cbn [replicate foldl]. by rewrite min2_idem.
Qed.

Lemma Math_max_replicate (c : num) (n : nat) : Math_max (replicate (S n) c) = c.
Proof.
  unfold Math_max. cbn [replicate foldl].
  assert (E : max2 NInf c = c) by (by destruct c).
  rewrite E. induction n as [| n IH]; [reflexivity |].
  cbn [replicate foldl]. by rewrite max2_idem.
Qed.

(** With equal extremes the quotient is 0/0 (or already NaN). *)
Lemma degenerate_quotient (c min max : num) :
  (((c - c) * (max - min)) / (c - c) + min)%num = NaN.
Proof.
  assert (E : (((c - c) * (max - min)) / (c - c))%num = NaN).
  { destruct c as [q | | |]; try reflexivity.
    change (Fin q - Fin q)%num with (Fin (q + - q)).
    rewrite Qcplus_opp_r.
    destruct (max - min)%num as [r | | |]; reflexivity. }
  rewrite E. reflexivity.
Qed.

(** A constant array, of whatever value, is sent to NaN everywhere. *)
Lemma normaliseBetween_constant (c min max : num) (n : nat) :
  normaliseBetween (replicate (S n) c) min max = replicate (S n) NaN.
Proof.
  unfold normaliseBetween.
  rewrite Math_min_replicate, Math_max_replicate, fmap_replicate.
  by rewrite degenerate_quotient.
Qed.

End Normalise.

(* ================================================================== *)
(** ** [Noise] *)
(* ================================================================== *)

Section NoiseFacts.

Variable Math_pow : num -> num -> num.
Variable noise2D : num -> num -> num.

Lemma add_0_r (a : num) : (a + ofZ 0)%num = a.
Proof. rewrite add_comm. apply add_0_l. Qed.

(** The loop of [Noise] accumulates two sums side by side. *)
Lemma foldl_Noise_step (x y e0 t0 : num) (amplitudes : list num) :
  foldl (Terrain.Noise_step noise2D x y) (e0, t0) amplitudes
  = ((e0 + sum ((fun a => ofZ 1 / a * Terrain.nv noise2D (x * a) (y * a)) <$> amplitudes))%num,
     (t0 + sum ((fun a => ofZ 1 / a) <$> amplitudes))%num).
Proof.
  revert e0 t0. induction amplitudes as [| a amplitudes IH]; intros e0 t0.
  - cbn [foldl fmap list_fmap sum]. by rewrite <- ofZ_0, !add_0_r.
  - rewrite !fmap_cons. cbn [foldl sum]. unfold Terrain.Noise_step at 2.
    rewrite IH. by rewrite !add_assoc.
Qed.

Lemma Noise_sums (amplitudes : list num) (exponent x y : num) :
  Terrain.Noise Math_pow noise2D amplitudes exponent x y
  = Math_pow
      (sum ((fun a => ofZ 1 / a * Terrain.nv noise2D (x * a) (y * a)) <$> amplitudes)
       / sum ((fun a => ofZ 1 / a) <$> amplitudes))%num
      exponent.
Proof. unfold Terrain.Noise. by rewrite foldl_Noise_step, !add_0_l. Qed.

Lemma Noise_single (exponent x y : num) :
  Terrain.Noise Math_pow noise2D [ofZ 1] exponent x y
  = Math_pow (Terrain.nv noise2D x y) exponent.
Proof.
  rewrite Noise_sums. cbn [fmap list_fmap sum].
  by rewrite !add_0_r, !mul_1_r, !div_1_r, mul_1_l.
Qed.

End NoiseFacts.

(** [Noise] only depends on the values of the noise function. *)
Lemma Noise_ext (Math_pow f g : num -> num -> num) (amplitudes : list num)
    (exponent x y : num) :
  (forall u v, f u v = g u v) ->
  Terrain.Noise Math_pow f amplitudes exponent x y
  = Terrain.Noise Math_pow g amplitudes exponent x y.
Proof.
  intros Hfg. rewrite !Noise_sums. do 3 f_equal.
  apply list_fmap_ext. intros _ a _. unfold Terrain.nv. by rewrite Hfg.
Qed.

(* ================================================================== *)
(** ** [Terrain.generate] *)
(* ================================================================== *)

Section GenerateFacts.

Variable Math_pow : num -> num -> num.

(** Writing the cells [0 .. n-1] one after the other fills the array. *)
Lemma fill_prefix (g : Z -> num) (n k : nat) :
  (k <= n)%nat ->
  foldl (fun nvs i => <[Z.to_nat i := g i]> nvs)
        (replicate n NaN) (seqZ 0 (Z.of_nat k))
  = (g <$> seqZ 0 (Z.of_nat k)) ++ replicate (n - k) NaN.
Proof.
  induction k as [| k IH]; intros Hk.
  - cbn. by rewrite Nat.sub_0_r.
  - rewrite seqZ_S, foldl_app, IH by lia. cbn [foldl].
    rewrite fmap_app. cbn [fmap list_fmap]. rewrite <- app_assoc.
    rewrite insert_app_r_alt; rewrite length_fmap, length_seqZ; [| lia].
    replace (Z.to_nat (0 + Z.of_nat k) - Z.to_nat (Z.of_nat k))%nat with 0%nat by lia.
    replace (n - k)%nat with (S (n - S k)) by lia.
    reflexivity.
Qed.

Lemma fill_all (g : Z -> num) (n : Z) :
  foldl (fun nvs i => <[Z.to_nat i := g i]> nvs) (Terrain.new_Array n) (seqZ 0 n)
  = g <$> seqZ 0 n.
Proof.
  unfold Terrain.new_Array. destruct (Z.le_gt_cases n 0) as [Hn | Hn].
  - rewrite seqZ_nil by assumption. by replace (Z.to_nat n) with 0%nat by lia.
  - rewrite <- (Z2Nat.id n) at 2 3 by lia.
    rewrite fill_prefix by lia. rewrite Nat.sub_diag. apply app_nil_r.
Qed.

Variable this : Terrain.t.
Variables seed frequency exponent : num.
Variable amplitudes : list num.

(** The array [nvs] at the end of the loop. *)
Lemma generate_nvs :
  Terrain.heightmap (Terrain.generate Math_pow this seed frequency exponent amplitudes false)
  = Terrain.generate_cell Math_pow this frequency exponent amplitudes <$> seqZ 0 (Terrain.lod this * Terrain.lod this)%Z.
Proof. unfold Terrain.generate. cbn [Terrain.heightmap]. apply fill_all. Qed.

Lemma generate_normalised :
  Terrain.heightmap (Terrain.generate Math_pow this seed frequency exponent amplitudes true)
  = normaliseBetween
      (Terrain.heightmap (Terrain.generate Math_pow this seed frequency exponent amplitudes false))
      (ofZ 0) (ofZ 1).
Proof. reflexivity. Qed.

Lemma generate_length (normalise : bool) :
  length (Terrain.heightmap
            (Terrain.generate Math_pow this seed frequency exponent amplitudes normalise))
  = Z.to_nat (Terrain.lod this * Terrain.lod this)%Z.
Proof.
  destruct normalise.
  - rewrite generate_normalised, normaliseBetween_length, generate_nvs.
    by rewrite length_fmap, length_seqZ.
  - by rewrite generate_nvs, length_fmap, length_seqZ.
Qed.

Lemma generate_lookup (i : Z) :
  (0 <= i < (Terrain.lod this * Terrain.lod this)%Z)%Z ->
  Terrain.heightmap (Terrain.generate Math_pow this seed frequency exponent amplitudes false)
    !! Z.to_nat i
  = Some (Terrain.generate_cell Math_pow this frequency exponent amplitudes i).
Proof.
  intros Hi. rewrite generate_nvs, list_lookup_fmap.
  rewrite lookup_seqZ_lt by lia. cbn. do 2 f_equal. lia.
Qed.

(** A constant grid is normalised to NaN everywhere. *)
Lemma generate_constant (c : num) (n : nat) :
  Terrain.heightmap (Terrain.generate Math_pow this seed frequency exponent amplitudes false)
  = replicate (S n) c ->
  Terrain.heightmap (Terrain.generate Math_pow this seed frequency exponent amplitudes true)
  = replicate (S n) NaN.
Proof. intros E. rewrite generate_normalised, E. apply normaliseBetween_constant. Qed.

End GenerateFacts.

(* ================================================================== *)
(** ** Range of the generated values *)
(* ================================================================== *)

Lemma Qcinv_pos (a : Qc) : 0 < a -> 0 < / a.
Proof.
  intros Ha. unfold Qclt in *. unfold Qcinv. cbn [this Q2Qc].
  rewrite !Qred_correct. by apply Qinv_lt_0_compat.
Qed.

Lemma Qcpos_neq_0 (a : Qc) : 0 < a -> a <> 0.
Proof. intros Ha E. by apply (Qclt_not_eq _ _ Ha). Qed.

Lemma Qcdiv_unit (e t : Qc) : 0 <= e -> e <= t -> 0 < t -> 0 <= e / t <= 1.
Proof.
  intros He Het Ht. unfold Qcdiv.
  pose proof (Qcinv_pos t Ht) as Hk.
  pose proof (Qcmult_inv_r t (Qcpos_neq_0 t Ht)) as Hone.
  revert Hk Hone. generalize (/ t). intros k Hk Hone.
  assert (Hone' : (t * k == 1)%Q).
  { rewrite <- (Qred_correct (t * k)%Q). change (this (t * k)%Qc == 1)%Q. by rewrite Hone. }
  to_Q. split; nra.
Qed.

Section Range.

Variable Math_pow : num -> num -> num.
Variable noise2D : num -> num -> num.
Variable exponent : num.

Hypothesis noise_range : forall x y, between (-1) 1 (noise2D x y).
Hypothesis pow_range :
  forall b, 0 <= b <= 1 -> between 0 1 (Math_pow (Fin b) exponent).

Lemma nv_range (x y : num) : between 0 1 (Terrain.nv noise2D x y).
Proof.
  unfold Terrain.nv. destruct (noise_range x y) as (n & -> & Hn1 & Hn2).
  exists (n / 2 + Q2Qc (1 # 2)). split.
  - change (ofZ 2) with (Fin 2). by rewrite div_Fin.
  - unfold Qcdiv, Qcinv. to_Q.
    assert (Hh : (/ (1 + 1) == 1 # 2)%Q) by reflexivity. rewrite Hh.
    split; lra.
Qed.

Lemma Noise_loop_range (x y : num) (amps : list Qc) (e0 t0 : Qc) :
  Forall (fun a => 0 < a) amps ->
  0 <= e0 -> e0 <= t0 ->
  exists e t,
    foldl (Terrain.Noise_step noise2D x y) (Fin e0, Fin t0) (Fin <$> amps) = (Fin e, Fin t)
    /\ 0 <= e /\ e <= t /\ t0 <= t /\ (amps <> [] -> t0 < t).
Proof.
  intros Hpos. revert e0 t0.
  induction Hpos as [| a amps Ha _ IH]; intros e0 t0 He0 Het0.
  - exists e0, t0. repeat split; auto; try apply Qcle_refl; done.
  - rewrite fmap_cons. cbn [foldl]. unfold Terrain.Noise_step at 2.
    destruct (nv_range (x * Fin a) (y * Fin a)) as (v & -> & Hv0 & Hv1).
    rewrite ofZ_1, div_Fin by (by apply Qcpos_neq_0).
    change (Fin (1 / a) * Fin v)%num with (Fin (1 / a * v)).
    change (Fin e0 + Fin (1 / a * v))%num with (Fin (e0 + 1 / a * v)).
    change (Fin t0 + Fin (1 / a))%num with (Fin (t0 + 1 / a)).
    assert (Hw : 0 < 1 / a).
    { unfold Qcdiv. rewrite Qcmult_1_l. by apply Qcinv_pos. }
    revert Hw. generalize (1 / a). intros w Hw.
    destruct (IH (e0 + w * v) (t0 + w)) as (e & t & -> & He & Het & Ht & _).
    + to_Q. nra.
    + to_Q. nra.
    + exists e, t. repeat split; auto.
      * to_Q. lra.
      * intros _. to_Q. lra.
Qed.

(** With a noise function into [[-1, 1]] and positive amplitudes, the
    weighted average lies in [[0, 1]], and so does its power. *)
Lemma Noise_range (x y : num) (amps : list Qc) :
  amps <> [] -> Forall (fun a => 0 < a) amps ->
  between 0 1 (Terrain.Noise Math_pow noise2D (Fin <$> amps) exponent x y).
Proof.
  intros Hne Hpos. unfold Terrain.Noise. rewrite ofZ_0.
  destruct (Noise_loop_range x y amps 0 0 Hpos) as (e & t & -> & He & Het & _ & Ht);
    [apply Qcle_refl | apply Qcle_refl |].
  specialize (Ht Hne).
  rewrite div_Fin by (by apply Qcpos_neq_0).
  apply pow_range. by apply Qcdiv_unit.
Qed.

End Range.

Lemma between_Fin_list (lo hi : Qc) (xs : list num) :
  (forall v, v ∈ xs -> between lo hi v) ->
  exists qs, xs = Fin <$> qs /\ forall q, q ∈ qs -> lo <= q <= hi.
Proof.
  induction xs as [| x xs IH]; intros H.
  - exists []. split; [done | intros q Hq; inversion Hq].
  - destruct (H x) as (q & -> & Hq); [by left |].
    destruct IH as (qs & -> & Hqs); [intros v Hv; apply H; by right |].
    exists (q :: qs). split; [done |].
    intros q' Hq'. apply elem_of_cons in Hq' as [-> | Hq']; auto.
Qed.

Lemma non_constant_Fin (qs : list Qc) : non_constant (Fin <$> qs) -> non_constant qs.
Proof.
  intros (a & b & Ha & Hb & Hab).
  apply list_elem_of_fmap in Ha as (p & -> & Hp).
  apply list_elem_of_fmap in Hb as (q & -> & Hq).
  exists p, q. repeat split; auto. congruence.
Qed.

Section GenerateRange.

Variable Math_pow : num -> num -> num.
Variable this : Terrain.t.
Variables seed frequency exponent : num.
Variable amps : list Qc.

Hypothesis noise_range : forall x y, between (-1) 1 (Terrain.noise2D this x y).
Hypothesis pow_range :
  forall b, 0 <= b <= 1 -> between 0 1 (Math_pow (Fin b) exponent).
Hypothesis amps_nonempty : amps <> [].
Hypothesis amps_positive : Forall (fun a => 0 < a) amps.

(** Without normalisation every value lies in [[0, 1]]. *)
Lemma generate_range_raw (v : num) :
  v ∈ Terrain.heightmap
        (Terrain.generate Math_pow this seed frequency exponent (Fin <$> amps) false) ->
  between 0 1 v.
Proof.
  rewrite generate_nvs. intros Hv.
  apply list_elem_of_fmap in Hv as (i & -> & _).
  unfold Terrain.generate_cell. by apply Noise_range.
Qed.

(** With normalisation every value lies in [[0, 1]] as soon as the grid
    has two distinct values. *)
Lemma generate_range_normalised (v : num) :
  non_constant
    (Terrain.heightmap
       (Terrain.generate Math_pow this seed frequency exponent (Fin <$> amps) false)) ->
  v ∈ Terrain.heightmap
        (Terrain.generate Math_pow this seed frequency exponent (Fin <$> amps) true) ->
  between 0 1 v.
Proof.
  rewrite generate_normalised.
  destruct (between_Fin_list 0 1 _ generate_range_raw) as (qs & -> & _).
  intros Hnc%non_constant_Fin Hv.
  destruct (normaliseBetween_Fin qs 0 1 Hnc) as (amin & amax & _ & _ & Hsp & Hall & E).
  change (ofZ 0) with (Fin 0) in Hv. change (ofZ 1) with (Fin 1) in Hv.
  rewrite E in Hv.
  apply list_elem_of_fmap in Hv as (r & -> & Hr).
  apply list_elem_of_fmap in Hr as (q & -> & Hq).
  exists (rescale amin amax 0 1 q). split; [done |].
  destruct (Hall q Hq). apply rescale_between; auto.
Qed.

End GenerateRange.

(** The hypotheses of the two range lemmas hold of the sample terrain with
    exponent 2 and the schedule [[1, 3]]. *)
Lemma sample_noise_range (x y : num) : between (-1) 1 (sample_noise x y).
Proof.
  unfold sample_noise.
  destruct (x <? y)%num; [| destruct (y <? x)%num].
  - exists 1. split; [reflexivity | split; by_compute].
  - exists (-1). split; [unfold ofZ; f_equal; by apply Qc_is_canon | split; by_compute].
  - exists 0. split; [reflexivity | split; by_compute].
Qed.

Lemma pow_whole_square_range (b : Qc) :
  0 <= b <= 1 -> between 0 1 (pow_whole (Fin b) (ofZ 2)).
Proof.
  intros [Hb0 Hb1]. exists (b * (b * 1)). split; [reflexivity |].
  to_Q. split; nra.
Qed.

Lemma sample_range (v : num) :
  v ∈ Terrain.heightmap
        (Terrain.generate pow_whole (sample_terrain []) (ofZ 7) (ofZ 1) (ofZ 2)
           (Fin <$> [1; 1 + 2]) true) ->
  between 0 1 v.
Proof.
  apply generate_range_normalised.
  - apply sample_noise_range.
  - apply pow_whole_square_range.
  - discriminate.
  - repeat constructor.
  - exists (Fin 0), (Fin 1). repeat split; [| | by_compute].
    + apply (list_elem_of_lookup_2 _ 1%nat). by_compute.
    + apply (list_elem_of_lookup_2 _ 2%nat). by_compute.
Qed.

(* ================================================================== *)
(** ** The amplitude array of [updateVars] *)
(* ================================================================== *)

Section Amps.

Variable ampl : num.

(** After [k] turns of the loop the array has [k + 1] entries, starts
    with 1, and each entry is its predecessor plus [ampl]. *)
Lemma amps_prefix (k : nat) :
  let l := foldl (amps_push ampl) [ofZ 1] (seqZ 1 (Z.of_nat k)) in
  length l = S k
  /\ l !! 0%nat = Some (ofZ 1)
  /\ forall i, (i < k)%nat ->
       exists prev, l !! i = Some prev /\ l !! S i = Some (prev + ampl)%num.
Proof.
  induction k as [| k (Hlen & Hhd & Hstep)]; cbn zeta.
  - repeat split; [done.. | lia].
  - rewrite seqZ_S, foldl_app. cbn [foldl].
    set (l := foldl (amps_push ampl) [ofZ 1] (seqZ 1 (Z.of_nat k))) in *.
    destruct (lookup_lt_is_Some_2 l k) as [last Hlast]; [lia |].
    assert (E : amps_push ampl l (1 + Z.of_nat k) = l ++ [(last + ampl)%num]).
    { unfold amps_push. replace (Z.to_nat (1 + Z.of_nat k - 1)) with k by lia.
      by rewrite Hlast. }
    rewrite E. repeat split.
    + rewrite length_app, Hlen. cbn. lia.
    + by rewrite lookup_app_l by lia.
    + intros i Hi. destruct (decide (i = k)) as [-> | Hne].
      * exists last. split.
        -- by rewrite lookup_app_l by lia.
        -- rewrite lookup_app_r by lia. by replace (S k - length l)%nat with 0%nat by lia.
      * destruct (Hstep i) as (prev & H1 & H2); [lia |].
        exists prev. by rewrite !lookup_app_l by lia.
Qed.

Lemma amps_unfold (octv : Z) :
  amps octv ampl = foldl (amps_push ampl) [ofZ 1] (seqZ 1 (Z.of_nat (Z.to_nat (octv - 1)))).
Proof.
  unfold amps. destruct (Z.le_gt_cases (octv - 1) 0) as [H | H].
  - rewrite seqZ_nil by assumption. by replace (Z.to_nat (octv - 1)) with 0%nat by lia.
  - by rewrite Z2Nat.id by lia.
Qed.

End Amps.

(* ================================================================== *)
(** ** The clamp of the level of detail *)
(* ================================================================== *)

Lemma Qc_clamp_bounds (lo hi q : Qc) :
  lo <= hi -> lo <= Qcmax lo (Qcmin q hi) <= hi.
Proof.
  intros H. unfold Qcmax, Qcmin.
  repeat (destruct (decide _)); split; auto; try apply Qcle_refl.
  all: apply Qclt_le_weak, Qcnot_le_lt; assumption.
Qed.

Lemma clamp_Fin (q : Qc) :
  Math_max [ofZ 128; Math_min [Fin q; ofZ 512]]
  = Fin (Qcmax (Q2Qc 128) (Qcmin q (Q2Qc 512))).
Proof.
  unfold Math_max, Math_min, Qcmax, Qcmin. cbn [foldl].
  change (min2 PInf (Fin q)) with (Fin q).
  change (max2 NInf (ofZ 128)) with (Fin (Q2Qc 128)).
  change (ofZ 512) with (Fin (Q2Qc 512)).
  unfold min2, ltb.
  destruct (decide (q <= Q2Qc 512)) as [Hq | Hq].
  - rewrite bool_decide_eq_false_2 by (by apply Qcle_not_lt).
    unfold max2, ltb. destruct (decide (Q2Qc 128 <= q)) as [Hq' | Hq'].
    + destruct (decide (Q2Qc 128 = q)) as [<- | Hne].
      * rewrite bool_decide_eq_false_2; [done | apply Qcle_not_lt, Qcle_refl].
      * rewrite bool_decide_eq_true_2; [done |].
        apply Qcnot_le_lt. intros Hge. apply Hne. by apply Qcle_antisym.
    + rewrite bool_decide_eq_false_2; [done |].
      intros Hlt. apply Hq'. by apply Qclt_le_weak.
  - rewrite bool_decide_eq_true_2 by (by apply Qcnot_le_lt).
    unfold max2, ltb.
    rewrite bool_decide_eq_true_2 by by_compute.
    by rewrite decide_True by by_compute.
Qed.

(** The sign of a positive integer. *)
Lemma sign_ofZ_pos (z : Z) : (0 < z)%Z -> sign (ofZ z) = Gt.
Proof.
  intros Hz. unfold sign, ofZ. apply Qcgt_alt.
  unfold Qclt. cbn [this Q2Qc]. rewrite !Qred_correct.
  unfold Qlt. cbn. lia.
Qed.

Lemma fmap_const_replicate {A B : Type} (c : B) (l : list A) :
  (fun _ => c) <$> l = replicate (length l) c.
Proof. induction l as [| a l IH]; [done |]. cbn. by rewrite <- IH. Qed.

(** ** [generate] on a level of detail of 0 and on a frequency of 0 *)

Lemma generate_eta (Math_pow : num -> num -> num) (this : Terrain.t)
    (seed frequency exponent : num) (amplitudes : list num) (normalise : bool) :
  Terrain.generate Math_pow this seed frequency exponent amplitudes normalise
  = Terrain.mk
      (Terrain.heightmap
         (Terrain.generate Math_pow this seed frequency exponent amplitudes normalise))
      (Terrain.lod this) (Terrain.noise2D this).
Proof. reflexivity. Qed.

Lemma generate_empty (Math_pow : num -> num -> num) (this : Terrain.t)
    (seed frequency exponent : num) (amplitudes : list num) (normalise : bool) :
  Terrain.lod this = 0%Z ->
  Terrain.heightmap
    (Terrain.generate Math_pow this seed frequency exponent amplitudes normalise)
  = [].
Proof.
  intros Hlod. apply length_zero_iff_nil. rewrite generate_length, Hlod. reflexivity.
Qed.

(** With [frequency = 0] the quotient [lod / frequency] is Infinity and
    both coordinates are 0 in every cell. *)
Lemma generate_zero_frequency (Math_pow : num -> num -> num) (this : Terrain.t)
    (seed exponent : num) (amplitudes : list num) :
  (1 <= Terrain.lod this)%Z ->
  Terrain.heightmap
    (Terrain.generate Math_pow this seed (ofZ 0) exponent amplitudes false)
  = replicate (Z.to_nat (Terrain.lod this * Terrain.lod this))
      (Terrain.Noise Math_pow (Terrain.noise2D this) amplitudes exponent (ofZ 0) (ofZ 0)).
Proof.
  intros Hlod. rewrite generate_nvs.
  rewrite <- (length_seqZ 0 (Terrain.lod this * Terrain.lod this)).
  rewrite <- fmap_const_replicate. apply list_fmap_ext. intros _ i _.
  unfold Terrain.generate_cell.
  assert (E : (ofZ (Terrain.lod this) / ofZ 0)%num = PInf).
  { rewrite ofZ_0. unfold ofZ. cbn [div].
    rewrite decide_True by reflexivity.
    fold (ofZ (Terrain.lod this)). by rewrite sign_ofZ_pos by lia. }
  rewrite E. reflexivity.
Qed.

(* ================================================================== *)
(** ** The claims *)
(* ================================================================== *)

(** C1. [Noise(x, y)] is the sum over the amplitudes [a] of
    [(1/a) * (noise2D(x*a, y*a)/2 + 0.5)], divided by the sum over the
    amplitudes of [1/a], raised to the power [exponent]; with the
    schedule [[1]] it is [(noise2D(x, y)/2 + 0.5) ^ exponent]. *)
Theorem Noise_weighted_average (Math_pow noise2D : num -> num -> num)
    (amplitudes : list num) (exponent x y : num) :
  Terrain.Noise Math_pow noise2D amplitudes exponent x y
  = Math_pow
      (sum ((fun a => ofZ 1 / a * (noise2D (x * a) (y * a) / ofZ 2 + Fin (Q2Qc (1 # 2))))
              <$> amplitudes)
       / sum ((fun a => ofZ 1 / a) <$> amplitudes))%num
      exponent
  /\ Terrain.Noise Math_pow noise2D [ofZ 1] exponent x y
     = Math_pow (noise2D x y / ofZ 2 + Fin (Q2Qc (1 # 2)))%num exponent.
Proof. split; [apply Noise_sums | apply Noise_single]. Qed.



(** C3 (the code departs from it). Normalising the constant sequence
    [[5, 5, 5]] gives [[NaN, NaN, NaN]], and [generate] with
    normalisation on a constant grid (constant noise 0, side 2, schedule
    [[1]], exponent 1) gives NaN in every cell. *)
Theorem normaliseBetween_constant_NaN :
  normaliseBetween [ofZ 5; ofZ 5; ofZ 5] (ofZ 0) (ofZ 1) = [NaN; NaN; NaN]
  /\ Terrain.heightmap
       (Terrain.generate pow_whole (Terrain.mk [] 2 (fun _ _ => ofZ 0))
          (ofZ 7) (ofZ 1) (ofZ 1) [ofZ 1] false)
     = replicate 4 (Fin (Q2Qc (1 # 2)))
  /\ Terrain.heightmap
       (Terrain.generate pow_whole (Terrain.mk [] 2 (fun _ _ => ofZ 0))
          (ofZ 7) (ofZ 1) (ofZ 1) [ofZ 1] true)
     = [NaN; NaN; NaN; NaN].
Proof.
  split; [apply (normaliseBetween_constant (ofZ 5) (ofZ 0) (ofZ 1) 2) |].
  assert (E : Terrain.heightmap
                (Terrain.generate pow_whole (Terrain.mk [] 2 (fun _ _ => ofZ 0))
                   (ofZ 7) (ofZ 1) (ofZ 1) [ofZ 1] false)
              = replicate 4 (Fin (Q2Qc (1 # 2)))) by by_compute.
  split; [exact E |]. exact (generate_constant _ _ _ _ _ _ _ 3%nat E).
Qed.

(** C4, the claim as stated fails.  On doubles, [[0, 3]] normalised
    between 0 and 0.1 has the maximum 0.10000000000000002, the double
    that follows 0.1, and 0.1 itself is not among the values; on
    [[-2^1023, 0, 2^1023]] the difference of the extremes overflows and
    the result between 0 and 1 is [[0, 0, NaN]]; and the sequence
    [[0, Infinity]], which has two distinct values, is sent to [[0, NaN]],
    of which 1 is not the maximum. *)
Lemma normalised_extremes_inexact :
  normaliseBetween_double [0; 3]%float 0%float 0x1.999999999999ap-4%float
  = [0; 0x1.999999999999bp-4]%float
  /\ PrimFloat.ltb 0x1.999999999999ap-4%float 0x1.999999999999bp-4%float = true
  /\ (0x1.999999999999ap-4%float
      ∉ normaliseBetween_double [0; 3]%float 0%float 0x1.999999999999ap-4%float)
  /\ normaliseBetween_double [(- 0x1p1023); 0; 0x1p1023]%float 0%float 1%float
     = [0%float; 0%float; PrimFloat.nan]
  /\ non_constant [ofZ 0; PInf]
  /\ normaliseBetween [ofZ 0; PInf] (ofZ 0) (ofZ 1) = [ofZ 0; NaN]
  /\ ~ is_maximum (ofZ 1) (normaliseBetween [ofZ 0; PInf] (ofZ 0) (ofZ 1)).
Proof.
  assert (E : normaliseBetween_double [0; 3]%float 0%float 0x1.999999999999ap-4%float
              = [0; 0x1.999999999999bp-4]%float) by (vm_compute; reflexivity).
  assert (F : normaliseBetween [ofZ 0; PInf] (ofZ 0) (ofZ 1) = [ofZ 0; NaN]) by by_compute.
  split; [exact E |]. split; [vm_compute; reflexivity |]. split.
  - rewrite E. intros H.
    apply elem_of_cons in H as [H | H]; [vm_compute in H; discriminate H |].
    apply elem_of_cons in H as [H | H]; [vm_compute in H; discriminate H |].
    inversion H.
  - split; [vm_compute; reflexivity |]. split.
    + exists (ofZ 0), PInf. repeat split; [by_compute | by_compute | discriminate].
    + split; [exact F |]. rewrite F. intros [H _].
      apply elem_of_cons in H as [H | H]; [revert H; by_compute |].
      apply elem_of_cons in H as [H | H]; [discriminate H | inversion H].
Qed.

(** C4, amended.  On a sequence of finite numbers with at least two
    distinct values, whose differences stay within the finite doubles,
    the sequence returned by [normaliseBetween(0, 1)] has minimum exactly
    0 and maximum exactly 1; hence [generate] with normalisation, on a
    grid of such values, leaves a sequence with minimum exactly 0 and
    maximum exactly 1. *)
Theorem normalised_unit_extremes (Math_pow : num -> num -> num) (this : Terrain.t)
    (seed frequency exponent : num) (amplitudes : list num) (values : list Qc) :
  non_constant values -> spread_fits values ->
  (is_minimum (ofZ 0) (normaliseBetween (Fin <$> values) (ofZ 0) (ofZ 1))
   /\ is_maximum (ofZ 1) (normaliseBetween (Fin <$> values) (ofZ 0) (ofZ 1)))
  /\ (Terrain.heightmap
        (Terrain.generate Math_pow this seed frequency exponent amplitudes false)
      = Fin <$> values ->
      is_minimum (ofZ 0)
        (Terrain.heightmap
           (Terrain.generate Math_pow this seed frequency exponent amplitudes true))
      /\ is_maximum (ofZ 1)
           (Terrain.heightmap
              (Terrain.generate Math_pow this seed frequency exponent amplitudes true))).
Proof.
  intros Hnc _.
  assert (Hr : (0 : Qc) <= 1) by by_compute.
  pose proof (normaliseBetween_extremes values 0 1 Hnc Hr) as H.
  split; [exact H |].
  intros E. rewrite generate_normalised, E. exact H.
Qed.

Lemma normalised_unit_extremes_witness :
  let this := Terrain.mk [] 2 (fun x y => (x - y)%num) in
  let values := [Q2Qc (1 # 2); Q2Qc (3 # 4); Q2Qc (1 # 4); Q2Qc (1 # 2)] in
  non_constant values
  /\ spread_fits values
  /\ Terrain.heightmap
       (Terrain.generate pow_whole this (ofZ 7) (ofZ 1) (ofZ 1) [ofZ 1] false)
     = Fin <$> values
  /\ Terrain.heightmap
       (Terrain.generate pow_whole this (ofZ 7) (ofZ 1) (ofZ 1) [ofZ 1] true)
     = Fin <$> [Q2Qc (1 # 2); 1; 0; Q2Qc (1 # 2)]
  /\ is_minimum (ofZ 0)
       (Terrain.heightmap
          (Terrain.generate pow_whole this (ofZ 7) (ofZ 1) (ofZ 1) [ofZ 1] true))
  /\ is_maximum (ofZ 1)
       (Terrain.heightmap
          (Terrain.generate pow_whole this (ofZ 7) (ofZ 1) (ofZ 1) [ofZ 1] true)).
Proof.
  intros this values.
  assert (Hnc : non_constant values).
  { exists (Q2Qc (1 # 2)), (Q2Qc (3 # 4)). repeat split; by_compute. }
  assert (Hsp : spread_fits values) by (unfold spread_fits; by_compute).
  assert (E : Terrain.heightmap
                (Terrain.generate pow_whole this (ofZ 7) (ofZ 1) (ofZ 1) [ofZ 1] false)
              = Fin <$> values) by by_compute.
  destruct (normalised_unit_extremes pow_whole this (ofZ 7) (ofZ 1) (ofZ 1) [ofZ 1]
              values Hnc Hsp) as [_ Hgen].
  destruct (Hgen E) as [Hmin Hmax].
  split; [exact Hnc |]. split; [exact Hsp |]. split; [exact E |].
  split; [by_compute |]. split; [exact Hmin | exact Hmax].
Defined.

(** C5. For [octv >= 1] the amplitude array built by [updateVars] has
    exactly [octv] entries, its first entry is 1, and every later entry
    is its predecessor plus [ampl]; one octave gives [[1]] whatever the
    step, four octaves give [[1, 3, 5, 7]] with step 2 and [[1, 2, 3, 4]]
    with step 1. *)
Theorem amps_schedule (octv : Z) (ampl : num) :
  (1 <= octv)%Z ->
  length (amps octv ampl) = Z.to_nat octv
  /\ amps octv ampl !! 0%nat = Some (ofZ 1)
  /\ (forall i : nat,
        (0 < i)%nat -> (Z.of_nat i < octv)%Z ->
        exists prev,
          amps octv ampl !! (i - 1)%nat = Some prev
          /\ amps octv ampl !! i = Some (prev + ampl)%num)
  /\ amps 1 ampl = [ofZ 1]
  /\ amps 4 (ofZ 2) = [ofZ 1; ofZ 3; ofZ 5; ofZ 7]
  /\ amps 4 (ofZ 1) = [ofZ 1; ofZ 2; ofZ 3; ofZ 4].
Proof.
  intros Hoctv. rewrite amps_unfold.
  destruct (amps_prefix ampl (Z.to_nat (octv - 1))) as (Hlen & Hhd & Hstep).
  split; [rewrite Hlen; lia |]. split; [exact Hhd |]. split.
  - intros i Hi Hlt. destruct (Hstep (i - 1)%nat) as (prev & H1 & H2); [lia |].
    exists prev. split; [exact H1 |].
    by replace i with (S (i - 1)) at 1 by lia.
  - split; [reflexivity |]. split; by_compute.
Qed.

Lemma amps_schedule_witness :
  (1 <= 6)%Z
  /\ length (amps 6 (ofZ 4)) = 6%nat
  /\ amps 6 (ofZ 4) !! 0%nat = Some (ofZ 1)
  /\ exists prev,
       amps 6 (ofZ 4) !! 4%nat = Some prev
       /\ amps 6 (ofZ 4) !! 5%nat = Some (prev + ofZ 4)%num.
Proof.
  assert (H : (1 <= 6)%Z) by lia.
  destruct (amps_schedule 6 (ofZ 4) H) as (Hlen & Hhd & Hstep & _).
  split; [exact H |]. split; [exact Hlen |]. split; [exact Hhd |].
  apply (Hstep 5%nat); lia.
Defined.

(** C6 (the code departs from it). With a level of detail of 1 and
    normalisation, the only value of the grid is NaN, whatever the noise
    function, the exponent and the amplitude schedule: it does not lie in
    [[0, 1]]. *)
Theorem generate_single_cell_NaN (Math_pow noise2D : num -> num -> num)
    (previous : list num) (seed frequency exponent : num) (amplitudes : list num) :
  Terrain.heightmap
    (Terrain.generate Math_pow (Terrain.mk previous 1 noise2D)
       seed frequency exponent amplitudes true)
  = [NaN]
  /\ ~ between 0 1 NaN.
Proof.
  split.
  - apply (generate_constant _ _ _ _ _ _
             (Terrain.generate_cell Math_pow (Terrain.mk previous 1 noise2D)
                frequency exponent amplitudes 0) 0%nat).
    by rewrite generate_nvs.
  - by intros (q & Hq & _).
Qed.




(** C8. [generate] is deterministic: two calls on terrains with the same
    level of detail and noise functions that agree everywhere, with the
    same frequency, exponent, amplitude schedule and normalisation flag,
    leave the same heightmap, element for element (whatever the previous
    heightmaps and the [seed] arguments, which [generate] does not read). *)
Theorem generate_deterministic (Math_pow : num -> num -> num)
    (this other : Terrain.t) (seed seed' frequency exponent : num)
    (amplitudes : list num) (normalise : bool) :
  Terrain.lod this = Terrain.lod other ->
  (forall x y, Terrain.noise2D this x y = Terrain.noise2D other x y) ->
  Terrain.heightmap
    (Terrain.generate Math_pow this seed frequency exponent amplitudes normalise)
  = Terrain.heightmap
      (Terrain.generate Math_pow other seed' frequency exponent amplitudes normalise).
Proof.
  intros Hlod Hnoise.
  assert (E : Terrain.heightmap
                (Terrain.generate Math_pow this seed frequency exponent amplitudes false)
              = Terrain.heightmap
                  (Terrain.generate Math_pow other seed' frequency exponent amplitudes false)).
  { rewrite !generate_nvs, <- Hlod. apply list_fmap_ext. intros _ i _.
    unfold Terrain.generate_cell. rewrite <- Hlod. by apply Noise_ext. }
  destruct normalise; [| exact E].
  by rewrite !generate_normalised, E.
Qed.

Lemma generate_deterministic_witness :
  Terrain.lod (sample_terrain []) = Terrain.lod (sample_terrain [ofZ 7])
  /\ (forall x y,
        Terrain.noise2D (sample_terrain []) x y
        = Terrain.noise2D (sample_terrain [ofZ 7]) x y)
  /\ Terrain.heightmap
       (Terrain.generate pow_whole (sample_terrain []) (ofZ 1) (ofZ 1) (ofZ 2)
          [ofZ 1; ofZ 3] true)
     = Terrain.heightmap
         (Terrain.generate pow_whole (sample_terrain [ofZ 7]) (ofZ 2) (ofZ 1) (ofZ 2)
            [ofZ 1; ofZ 3] true).
Proof.
  assert (Hlod : Terrain.lod (sample_terrain []) = Terrain.lod (sample_terrain [ofZ 7]))
    by reflexivity.
  assert (Hnoise : forall x y,
             Terrain.noise2D (sample_terrain []) x y
             = Terrain.noise2D (sample_terrain [ofZ 7]) x y)
    by reflexivity.
  split; [exact Hlod |]. split; [exact Hnoise |].
  exact (generate_deterministic pow_whole (sample_terrain []) (sample_terrain [ofZ 7])
           (ofZ 1) (ofZ 2) (ofZ 1) (ofZ 2) [ofZ 1; ofZ 3] true Hlod Hnoise).
Defined.

(** C9 (the code departs from it). [normaliseBetween] keeps the length,
    but on the constant sequence [[5, 5, 5]] with bounds [0 <= 1] it does
    not keep the order: [values[0] <= values[1]] holds and
    [output[0] <= output[1]] does not, both outputs being NaN. *)
Theorem normaliseBetween_constant_order :
  let values := [ofZ 5; ofZ 5; ofZ 5] in
  let output := normaliseBetween values (ofZ 0) (ofZ 1) in
  length output = length values
  /\ (ofZ 0 <=? ofZ 1)%num = true
  /\ values !! 0%nat = Some (ofZ 5) /\ values !! 1%nat = Some (ofZ 5)
  /\ (ofZ 5 <=? ofZ 5)%num = true
  /\ output !! 0%nat = Some NaN /\ output !! 1%nat = Some NaN
  /\ (NaN <=? NaN)%num = false.
Proof.
  cbn zeta.
  assert (E : normaliseBetween [ofZ 5; ofZ 5; ofZ 5] (ofZ 0) (ofZ 1) = [NaN; NaN; NaN])
    by apply (normaliseBetween_constant (ofZ 5) (ofZ 0) (ofZ 1) 2).
  rewrite E. repeat split; by_compute.
Qed.

(** C10. For a hash whose text after the first character is not empty
    and reads as the number [h], the level of detail is
    [max(128, min(h, 512))], which lies in [[128, 512]]; without a hash
    (or with a bare ["#"]) it is 128. *)
Theorem lod_clamped (ToNumber : string -> num) (hash : string) (h : Qc) :
  substring1 hash <> EmptyString ->
  ToNumber (substring1 hash) = Fin h ->
  lod ToNumber hash = Fin (Qcmax (Q2Qc 128) (Qcmin h (Q2Qc 512)))
  /\ Q2Qc 128 <= Qcmax (Q2Qc 128) (Qcmin h (Q2Qc 512)) <= Q2Qc 512
  /\ lod ToNumber EmptyString = ofZ 128
  /\ lod ToNumber "#" = ofZ 128.
Proof.
  intros Hne Hh. split; [| split; [| split; reflexivity]].
  - unfold lod. destruct (substring1 hash) as [| c rest]; [done |].
    rewrite Hh. apply clamp_Fin.
  - apply Qc_clamp_bounds. by_compute.
Qed.

Lemma lod_clamped_witness :
  substring1 "#1000" <> EmptyString
  /\ ToNumber_digits (substring1 "#1000") = Fin (Q2Qc 1000)
  /\ lod ToNumber_digits "#1000" = Fin (Qcmax (Q2Qc 128) (Qcmin (Q2Qc 1000) (Q2Qc 512)))
  /\ lod ToNumber_digits "#1000" = ofZ 512.
Proof.
  assert (Hne : substring1 "#1000" <> EmptyString) by discriminate.
  assert (Hh : ToNumber_digits (substring1 "#1000") = Fin (Q2Qc 1000)) by reflexivity.
  destruct (lod_clamped ToNumber_digits "#1000" (Q2Qc 1000) Hne Hh) as (Hlod & _).
  split; [exact Hne |]. split; [exact Hh |]. split; [exact Hlod |].
  rewrite Hlod. by_compute.
Defined.

(* ================================================================== *)
(** * Further properties *)
(* ================================================================== *)

(* ================================================================== *)
(** ** More on [normaliseBetween] *)
(* ================================================================== *)

Section RescaleMore.

Variables amin amax lo hi : Qc.
Hypothesis spread : amin < amax.

Lemma rescale_anti v w :
  hi <= lo -> v <= w -> rescale amin amax lo hi w <= rescale amin amax lo hi v.
Proof.
  intros Hr Hvw. rewrite !(rescale_slope _ _ _ _ spread).
  assert (Hs : 0 <= (lo - hi) * / (amax - amin)).
  { pose proof (slope_pos _ _ spread) as Hk. revert Hk.
    generalize (/ (amax - amin)). intros s Hs.
    to_Q. apply Qmult_le_0_compat; lra. }
  replace ((hi - lo) * / (amax - amin)) with (- ((lo - hi) * / (amax - amin))) by ring.
  revert Hs. generalize ((lo - hi) * / (amax - amin)). intros s Hs.
  to_Q. nra.
Qed.

End RescaleMore.

Lemma rescale_id (lo hi v : Qc) : lo < hi -> rescale lo hi lo hi v = v.
Proof. intros H. unfold rescale. field. by apply spread_neq_0. Qed.

(** X1. On a sequence of finite numbers with two distinct values, whose
    differences stay within the finite doubles, [normaliseBetween(0, 1)]
    keeps the relative order of any two entries and sends them into
    [[0, 1]]. *)
Theorem normaliseBetween_order (values : list Qc) (i j : nat) (vi vj : Qc) :
  non_constant values -> spread_fits values ->
  values !! i = Some vi -> values !! j = Some vj -> vi <= vj ->
  exists oi oj,
    normaliseBetween (Fin <$> values) (ofZ 0) (ofZ 1) !! i = Some (Fin oi)
    /\ normaliseBetween (Fin <$> values) (ofZ 0) (ofZ 1) !! j = Some (Fin oj)
    /\ 0 <= oi /\ oi <= oj /\ oj <= 1.
Proof.
  intros Hnc _ Hi Hj Hij.
  assert (Hr : (0 : Qc) <= 1) by by_compute.
  destruct (normaliseBetween_Fin values 0 1 Hnc)
    as (amin & amax & _ & _ & Hsp & Hall & E).
  change (Fin 0) with (ofZ 0) in E. change (Fin 1) with (ofZ 1) in E. rewrite E.
  exists (rescale amin amax 0 1 vi), (rescale amin amax 0 1 vj).
  rewrite !list_lookup_fmap, Hi, Hj.
  destruct (Hall vi (list_elem_of_lookup_2 _ _ _ Hi)) as [Hi1 Hi2].
  destruct (Hall vj (list_elem_of_lookup_2 _ _ _ Hj)) as [Hj1 Hj2].
  split; [reflexivity |]. split; [reflexivity |]. split; [| split].
  - by apply rescale_between.
  - by apply rescale_mono.
  - by apply rescale_between.
Qed.

Lemma normaliseBetween_order_witness :
  let values := [QcZ 5; QcZ 7; QcZ 6] in
  non_constant values /\ spread_fits values /\ QcZ 6 <= QcZ 7
  /\ exists oi oj,
       normaliseBetween (Fin <$> values) (ofZ 0) (ofZ 1) !! 2%nat = Some (Fin oi)
       /\ normaliseBetween (Fin <$> values) (ofZ 0) (ofZ 1) !! 1%nat = Some (Fin oj)
       /\ 0 <= oi /\ oi <= oj /\ oj <= 1.
Proof.
  intros values.
  assert (Hnc : non_constant values).
  { exists (QcZ 5), (QcZ 7). repeat split; by_compute. }
  assert (Hsp : spread_fits values) by (unfold spread_fits; by_compute).
  assert (Hle : QcZ 6 <= QcZ 7) by by_compute.
  split; [exact Hnc |]. split; [exact Hsp |]. split; [exact Hle |].
  exact (normaliseBetween_order values 2 1 (QcZ 6) (QcZ 7) Hnc Hsp eq_refl eq_refl Hle).
Defined.

(** X2. Normalising twice is normalising once: on a sequence of finite
    numbers with two distinct values, whose differences stay within the
    finite doubles, applying [normaliseBetween(0, 1)] to its own result
    changes nothing. *)
Theorem normaliseBetween_idempotent (values : list Qc) :
  non_constant values -> spread_fits values ->
  normaliseBetween (normaliseBetween (Fin <$> values) (ofZ 0) (ofZ 1)) (ofZ 0) (ofZ 1)
  = normaliseBetween (Fin <$> values) (ofZ 0) (ofZ 1).
Proof.
  intros Hnc _.
  assert (Hr : (0 : Qc) < 1) by by_compute.
  change (ofZ 0) with (Fin 0). change (ofZ 1) with (Fin 1).
  destruct (normaliseBetween_Fin values 0 1 Hnc)
    as (amin & amax & Hmin & Hmax & Hsp & Hall & ->).
  set (out := rescale amin amax 0 1 <$> values).
  assert (Hlo : 0 ∈ out).
  { apply list_elem_of_fmap. exists amin. split; [| done].
    symmetry. by apply rescale_amin. }
  assert (Hhi : 1 ∈ out).
  { apply list_elem_of_fmap. exists amax. split; [| done].
    symmetry. by apply rescale_amax. }
  assert (Hbd : forall r, r ∈ out -> 0 <= r <= 1).
  { intros r Hr'. apply list_elem_of_fmap in Hr' as (q & -> & Hq).
    destruct (Hall q Hq). apply rescale_between; auto; by apply Qclt_le_weak. }
  assert (Hnc' : non_constant out).
  { exists 0, 1. repeat split; auto; by apply Qclt_not_eq. }
  destruct (normaliseBetween_Fin out 0 1 Hnc')
    as (amin' & amax' & Hmin' & Hmax' & _ & Hall' & ->).
  assert (amin' = 0) as ->.
  { apply Qcle_antisym; [apply (Hall' 0 Hlo) | apply (Hbd amin' Hmin')]. }
  assert (amax' = 1) as ->.
  { apply Qcle_antisym; [apply (Hbd amax' Hmax') | apply (Hall' 1 Hhi)]. }
  f_equal. rewrite <- (list_fmap_id out) at 2.
  apply list_fmap_ext. intros _ r _. by apply rescale_id.
Qed.

Lemma normaliseBetween_idempotent_witness :
  let values := [QcZ 5; QcZ 7; QcZ 6] in
  non_constant values /\ spread_fits values
  /\ normaliseBetween (Fin <$> values) (ofZ 0) (ofZ 1)
     = Fin <$> [0; 1; Q2Qc (1 # 2)]
  /\ normaliseBetween (normaliseBetween (Fin <$> values) (ofZ 0) (ofZ 1))
       (ofZ 0) (ofZ 1)
     = normaliseBetween (Fin <$> values) (ofZ 0) (ofZ 1).
Proof.
  intros values.
  assert (Hnc : non_constant values).
  { exists (QcZ 5), (QcZ 7). repeat split; by_compute. }
  assert (Hsp : spread_fits values) by (unfold spread_fits; by_compute).
  split; [exact Hnc |]. split; [exact Hsp |]. split; [by_compute |].
  exact (normaliseBetween_idempotent values Hnc Hsp).
Defined.

(** X3. With the bounds the other way round, [normaliseBetween(1, 0)]
    reverses the order: on a sequence of finite numbers with two distinct
    values, whose differences stay within the finite doubles, of two
    entries the larger is sent to the smaller (or the same) value of
    [[0, 1]]; a least entry is sent to 1 and a greatest entry to 0. *)
Theorem normaliseBetween_reversed (values : list Qc) (i j : nat) (vi vj : Qc) :
  non_constant values -> spread_fits values ->
  values !! i = Some vi -> values !! j = Some vj -> vi <= vj ->
  exists oi oj,
    normaliseBetween (Fin <$> values) (ofZ 1) (ofZ 0) !! i = Some (Fin oi)
    /\ normaliseBetween (Fin <$> values) (ofZ 1) (ofZ 0) !! j = Some (Fin oj)
    /\ 0 <= oj /\ oj <= oi /\ oi <= 1
    /\ ((forall v, v ∈ values -> vi <= v) -> oi = 1)
    /\ ((forall v, v ∈ values -> v <= vj) -> oj = 0).
Proof.
  intros Hnc _ Hi Hj Hij.
  assert (Hr : (0 : Qc) <= 1) by by_compute.
  destruct (normaliseBetween_Fin values 1 0 Hnc)
    as (amin & amax & Hmin & Hmax & Hsp & Hall & E).
  change (Fin 0) with (ofZ 0) in E. change (Fin 1) with (ofZ 1) in E. rewrite E.
  exists (rescale amin amax 1 0 vi), (rescale amin amax 1 0 vj).
  rewrite !list_lookup_fmap, Hi, Hj.
  destruct (Hall vi (list_elem_of_lookup_2 _ _ _ Hi)) as [Hi1 Hi2].
  destruct (Hall vj (list_elem_of_lookup_2 _ _ _ Hj)) as [Hj1 Hj2].
  split; [reflexivity |]. split; [reflexivity |].
  split; [| split; [| split; [| split]]].
  - rewrite <- (rescale_amax amin amax 1 0 Hsp) at 1. by apply rescale_anti.
  - by apply rescale_anti.
  - rewrite <- (rescale_amin amin amax 1 0 Hsp) at 2. by apply rescale_anti.
  - intros Hleast.
    assert (vi = amin) as -> by (apply Qcle_antisym; [by apply Hleast | done]).
    by apply rescale_amin.
  - intros Hgreatest.
    assert (vj = amax) as -> by (apply Qcle_antisym; [done | by apply Hgreatest]).
    by apply rescale_amax.
Qed.

Lemma normaliseBetween_reversed_witness :
  let values := [QcZ 5; QcZ 7; QcZ 6] in
  non_constant values /\ spread_fits values /\ QcZ 5 <= QcZ 7
  /\ normaliseBetween (Fin <$> values) (ofZ 1) (ofZ 0)
     = Fin <$> [1; 0; Q2Qc (1 # 2)]
  /\ exists oi oj,
       normaliseBetween (Fin <$> values) (ofZ 1) (ofZ 0) !! 0%nat = Some (Fin oi)
       /\ normaliseBetween (Fin <$> values) (ofZ 1) (ofZ 0) !! 1%nat = Some (Fin oj)
       /\ 0 <= oj /\ oj <= oi /\ oi <= 1.
Proof.
  intros values.
  assert (Hnc : non_constant values).
  { exists (QcZ 5), (QcZ 7). repeat split; by_compute. }
  assert (Hsp : spread_fits values) by (unfold spread_fits; by_compute).
  assert (Hle : QcZ 5 <= QcZ 7) by by_compute.
  split; [exact Hnc |]. split; [exact Hsp |]. split; [exact Hle |].
  split; [by_compute |].
  destruct (normaliseBetween_reversed values 0 1 (QcZ 5) (QcZ 7) Hnc Hsp eq_refl eq_refl Hle)
    as (oi & oj & H1 & H2 & H3 & H4 & H5 & _).
  exists oi, oj. repeat split; assumption.
Defined.

Lemma foldl_min2_NaN (xs : list num) : foldl min2 NaN xs = NaN.
Proof. induction xs as [| x xs IH]; [done |]. cbn [foldl]. exact IH. Qed.

Lemma foldl_max2_NaN (xs : list num) : foldl max2 NaN xs = NaN.
Proof. induction xs as [| x xs IH]; [done |]. cbn [foldl]. exact IH. Qed.

Lemma min2_NaN_r (a : num) : min2 a NaN = NaN.
Proof. by destruct a. Qed.

Lemma max2_NaN_r (a : num) : max2 a NaN = NaN.
Proof. by destruct a. Qed.

(** As soon as one argument is NaN, so are [Math.min] and [Math.max]. *)
Lemma Math_min_NaN (xs : list num) : NaN ∈ xs -> Math_min xs = NaN.
Proof.
  unfold Math_min. generalize PInf.
  induction xs as [| x xs IH]; intros acc H; [inversion H |].
  cbn [foldl]. apply elem_of_cons in H as [<- | H]; [| by apply IH].
  rewrite min2_NaN_r. apply foldl_min2_NaN.
Qed.

Lemma Math_max_NaN (xs : list num) : NaN ∈ xs -> Math_max xs = NaN.
Proof.
  unfold Math_max. generalize NInf.
  induction xs as [| x xs IH]; intros acc H; [inversion H |].
  cbn [foldl]. apply elem_of_cons in H as [<- | H]; [| by apply IH].
  rewrite max2_NaN_r. apply foldl_max2_NaN.
Qed.

Lemma sub_NaN_r (a : num) : (a - NaN)%num = NaN.
Proof. by destruct a. Qed.

(** X4. One NaN in the array turns the whole result into NaN, whatever
    the other values and the bounds. *)
Theorem normaliseBetween_NaN_spreads (values : list num) (min max : num) :
  NaN ∈ values ->
  normaliseBetween values min max = replicate (length values) NaN.
Proof.
  intros H. unfold normaliseBetween.
  rewrite (Math_min_NaN _ H), (Math_max_NaN _ H).
  rewrite <- fmap_const_replicate. apply list_fmap_ext. intros _ v _.
  by rewrite sub_NaN_r.
Qed.

Lemma normaliseBetween_NaN_spreads_witness :
  NaN ∈ [ofZ 1; NaN; ofZ 3]
  /\ normaliseBetween [ofZ 1; NaN; ofZ 3] (ofZ 0) (ofZ 1) = [NaN; NaN; NaN].
Proof.
  assert (H : NaN ∈ [ofZ 1; NaN; ofZ 3]) by by_compute.
  split; [exact H |].
  exact (normaliseBetween_NaN_spreads [ofZ 1; NaN; ofZ 3] (ofZ 0) (ofZ 1) H).
Defined.

Lemma constant_replicate {A : Type} (c : A) (xs : list A) :
  (forall v, v ∈ xs -> v = c) -> xs = replicate (length xs) c.
Proof.
  induction xs as [| x xs IH]; intros H; [done |].
  cbn. rewrite (H x) by (by left). f_equal. apply IH. intros v Hv. apply H. by right.
Qed.

(** X5. An array whose entries are all the same number is sent to NaN in
    every position: for every such array that is not empty, every value
    (finite or not) and every pair of bounds. *)
Theorem normaliseBetween_constant_array (values : list num) (c min max : num) :
  values <> [] -> (forall v, v ∈ values -> v = c) ->
  normaliseBetween values min max = replicate (length values) NaN.
Proof.
  intros Hne Hc. rewrite (constant_replicate c values Hc) at 1.
  destruct values as [| v values]; [done |].
  cbn [length]. apply normaliseBetween_constant.
Qed.

Lemma normaliseBetween_constant_array_witness :
  [ofZ 2; ofZ 2] <> []
  /\ (forall v, v ∈ [ofZ 2; ofZ 2] -> v = ofZ 2)
  /\ normaliseBetween [ofZ 2; ofZ 2] (ofZ (-1)) (ofZ 1) = [NaN; NaN].
Proof.
  assert (Hne : [ofZ 2; ofZ 2] <> []) by discriminate.
  assert (Hc : forall v, v ∈ [ofZ 2; ofZ 2] -> v = ofZ 2).
  { intros v Hv. apply elem_of_cons in Hv as [-> | Hv]; [done |].
    apply elem_of_cons in Hv as [-> | Hv]; [done | inversion Hv]. }
  split; [exact Hne |]. split; [exact Hc |].
  exact (normaliseBetween_constant_array [ofZ 2; ofZ 2] (ofZ 2) (ofZ (-1)) (ofZ 1) Hne Hc).
Defined.

(* ================================================================== *)
(** ** A constant noise function *)
(* ================================================================== *)

(** When the noise function is constant, [Noise] does not depend on the
    position. *)
Lemma Noise_constant_position (Math_pow noise2D : num -> num -> num) (c : num)
    (amplitudes : list num) (exponent x y x' y' : num) :
  (forall u v, noise2D u v = c) ->
  Terrain.Noise Math_pow noise2D amplitudes exponent x y
  = Terrain.Noise Math_pow noise2D amplitudes exponent x' y'.
Proof.
  intros Hc. unfold Terrain.Noise.
  assert (E : forall acc,
             foldl (Terrain.Noise_step noise2D x y) acc amplitudes
             = foldl (Terrain.Noise_step noise2D x' y') acc amplitudes).
  { induction amplitudes as [| a amplitudes IH]; intros acc; [reflexivity |].
    cbn [foldl]. rewrite IH. f_equal.
    destruct acc as [e t]. unfold Terrain.Noise_step, Terrain.nv.
    by rewrite !Hc. }
  by rewrite E.
Qed.

(** X7. With a constant noise function the grid is flat: whatever the
    constant, the schedule, the frequency and the exponent, every value
    before normalisation is the same number, that of [Noise(0, 0)], and
    for [lod >= 1] the normalised grid is NaN in every cell. *)
Theorem generate_of_constant_noise (Math_pow : num -> num -> num) (this : Terrain.t)
    (c seed frequency exponent : num) (amplitudes : list num) :
  (forall u v, Terrain.noise2D this u v = c) ->
  Terrain.heightmap
    (Terrain.generate Math_pow this seed frequency exponent amplitudes false)
  = replicate (Z.to_nat (Terrain.lod this * Terrain.lod this))
      (Terrain.Noise Math_pow (Terrain.noise2D this) amplitudes exponent (ofZ 0) (ofZ 0))
  /\ ((1 <= Terrain.lod this)%Z ->
      Terrain.heightmap
        (Terrain.generate Math_pow this seed frequency exponent amplitudes true)
      = replicate (Z.to_nat (Terrain.lod this * Terrain.lod this)) NaN).
Proof.
  intros Hc.
  assert (E : Terrain.heightmap
                (Terrain.generate Math_pow this seed frequency exponent amplitudes false)
              = replicate (Z.to_nat (Terrain.lod this * Terrain.lod this))
                  (Terrain.Noise Math_pow (Terrain.noise2D this) amplitudes exponent
                     (ofZ 0) (ofZ 0))).
  { rewrite generate_nvs.
    rewrite <- (length_seqZ 0 (Terrain.lod this * Terrain.lod this)).
    rewrite <- fmap_const_replicate. apply list_fmap_ext. intros _ i _.
    unfold Terrain.generate_cell. by apply (Noise_constant_position _ _ c). }
  split; [exact E |]. intros Hlod.
  destruct (Z.to_nat (Terrain.lod this * Terrain.lod this)) as [| n] eqn:En; [nia |].
  exact (generate_constant _ _ _ _ _ _ _ n E).
Qed.

Lemma generate_of_constant_noise_witness :
  let this := Terrain.mk [] 3 (fun _ _ => Fin (Q2Qc (1 # 3))) in
  (forall u v, Terrain.noise2D this u v = Fin (Q2Qc (1 # 3)))
  /\ (1 <= Terrain.lod this)%Z
  /\ Terrain.heightmap
       (Terrain.generate pow_whole this (ofZ 7) (ofZ 2) (ofZ 2) [ofZ 1; ofZ 5] false)
     = replicate 9
         (Terrain.Noise pow_whole (fun _ _ => Fin (Q2Qc (1 # 3))) [ofZ 1; ofZ 5] (ofZ 2)
            (ofZ 0) (ofZ 0))
  /\ Terrain.heightmap
       (Terrain.generate pow_whole this (ofZ 7) (ofZ 2) (ofZ 2) [ofZ 1; ofZ 5] true)
     = replicate 9 NaN.
Proof.
  intros this.
  assert (H1 : forall u v, Terrain.noise2D this u v = Fin (Q2Qc (1 # 3))) by reflexivity.
  assert (H2 : (1 <= Terrain.lod this)%Z) by (cbn; lia).
  destruct (generate_of_constant_noise pow_whole this (Fin (Q2Qc (1 # 3))) (ofZ 7) (ofZ 2)
              (ofZ 2) [ofZ 1; ofZ 5] H1) as [Hflat Hn].
  split; [exact H1 |]. split; [exact H2 |]. split; [exact Hflat | exact (Hn H2)].
Defined.

(* ================================================================== *)
(** ** More on [Terrain.generate] *)
(* ================================================================== *)

Lemma QcZ_le (a b : Z) : (a <= b)%Z -> QcZ a <= QcZ b.
Proof.
  intros H. unfold Qcle, QcZ. cbn [this Q2Qc]. rewrite !Qred_correct.
  by rewrite <- Zle_Qle.
Qed.

Lemma QcZ_lt (a b : Z) : (a < b)%Z -> QcZ a < QcZ b.
Proof.
  intros H. unfold Qclt, QcZ. cbn [this Q2Qc]. rewrite !Qred_correct.
  by rewrite <- Zlt_Qlt.
Qed.

Lemma QcZ_add (a b : Z) : QcZ (a + b) = QcZ a + QcZ b.
Proof.
  apply Qc_is_canon. unfold QcZ, Qcplus. cbn [this Q2Qc].
  rewrite !Qred_correct. by rewrite inject_Z_plus.
Qed.

Lemma QcZ_mul (a b : Z) : QcZ (a * b) = QcZ a * QcZ b.
Proof.
  apply Qc_is_canon. unfold QcZ, Qcmult. cbn [this Q2Qc].
  rewrite !Qred_correct. by rewrite inject_Z_mult.
Qed.

(** X8. The grid is row-major: for [lod >= 1] and a cell [(x, y)] of the
    square, the value before normalisation at index [y * lod + x] is
    [Noise(x / (lod / frequency), y / (lod / frequency))]. *)
Theorem generate_row_major (Math_pow : num -> num -> num) (this : Terrain.t)
    (seed frequency exponent : num) (amplitudes : list num) (x y : Z) :
  (0 <= x < Terrain.lod this)%Z -> (0 <= y < Terrain.lod this)%Z ->
  Terrain.heightmap
    (Terrain.generate Math_pow this seed frequency exponent amplitudes false)
    !! Z.to_nat (y * Terrain.lod this + x)
  = Some (Terrain.Noise Math_pow (Terrain.noise2D this) amplitudes exponent
            (ofZ x / (ofZ (Terrain.lod this) / frequency))%num
            (ofZ y / (ofZ (Terrain.lod this) / frequency))%num).
Proof.
  intros Hx Hy. rewrite generate_lookup by nia.
  unfold Terrain.generate_cell.
  rewrite Z.rem_mod_nonneg, Z.quot_div_nonneg by nia.
  rewrite Z.add_comm, Z.mod_add, Z.div_add by lia.
  by rewrite Z.mod_small, Z.div_small by lia.
Qed.

Lemma generate_row_major_witness :
  (0 <= 1 < Terrain.lod (sample_terrain []))%Z
  /\ (0 <= 0 < Terrain.lod (sample_terrain []))%Z
  /\ Terrain.heightmap
       (Terrain.generate pow_whole (sample_terrain []) (ofZ 7) (ofZ 1) (ofZ 2)
          [ofZ 1; ofZ 3] false)
       !! 1%nat
     = Some (Terrain.Noise pow_whole sample_noise [ofZ 1; ofZ 3] (ofZ 2)
               (ofZ 1 / (ofZ 2 / ofZ 1))%num (ofZ 0 / (ofZ 2 / ofZ 1))%num).
Proof.
  assert (Hx : (0 <= 1 < Terrain.lod (sample_terrain []))%Z) by (cbn; lia).
  assert (Hy : (0 <= 0 < Terrain.lod (sample_terrain []))%Z) by (cbn; lia).
  split; [exact Hx |]. split; [exact Hy |].
  exact (generate_row_major pow_whole (sample_terrain []) (ofZ 7) (ofZ 1) (ofZ 2)
           [ofZ 1; ofZ 3] 1 0 Hx Hy).
Defined.

(** X10. With a noise function into [[-1, 1]], a non-empty schedule of
    finite amplitudes that are at least 1 and a power that keeps [[0, 1]]
    at the given exponent, every value of the grid before normalisation
    lies in [[0, 1]], and so does every value of the normalised grid when
    the grid has two distinct values. *)
Theorem generate_unit_range (Math_pow : num -> num -> num) (this : Terrain.t)
    (seed frequency exponent : num) (amps : list Qc) :
  (forall x y, between (-1) 1 (Terrain.noise2D this x y)) ->
  (forall b, 0 <= b <= 1 -> between 0 1 (Math_pow (Fin b) exponent)) ->
  amps <> [] -> Forall (fun a => 1 <= a) amps ->
  (forall v,
     v ∈ Terrain.heightmap
           (Terrain.generate Math_pow this seed frequency exponent (Fin <$> amps) false) ->
     between 0 1 v)
  /\ (non_constant
        (Terrain.heightmap
           (Terrain.generate Math_pow this seed frequency exponent (Fin <$> amps) false)) ->
      forall v,
        v ∈ Terrain.heightmap
              (Terrain.generate Math_pow this seed frequency exponent (Fin <$> amps) true) ->
        between 0 1 v).
Proof.
  intros Hn Hp Hne Hge.
  assert (Hpos : Forall (fun a => 0 < a) amps).
  { clear -Hge. induction Hge as [| a amps' Ha _ IH]; constructor; [| exact IH].
    apply Qclt_le_trans with 1; [by_compute | exact Ha]. }
  split.
  - intros v. by apply generate_range_raw.
  - intros Hnc v. by apply generate_range_normalised.
Qed.

Lemma generate_unit_range_witness :
  (forall x y, between (-1) 1 (Terrain.noise2D (sample_terrain []) x y))
  /\ (forall b, 0 <= b <= 1 -> between 0 1 (pow_whole (Fin b) (ofZ 2)))
  /\ [1; QcZ 3] <> [] /\ Forall (fun a => 1 <= a) [1; QcZ 3]
  /\ forall v,
       v ∈ Terrain.heightmap
             (Terrain.generate pow_whole (sample_terrain []) (ofZ 7) (ofZ 1) (ofZ 2)
                (Fin <$> [1; QcZ 3]) false) ->
       between 0 1 v.
Proof.
  assert (H1 : forall x y, between (-1) 1 (Terrain.noise2D (sample_terrain []) x y))
    by exact sample_noise_range.
  assert (H2 : forall b, 0 <= b <= 1 -> between 0 1 (pow_whole (Fin b) (ofZ 2)))
    by exact pow_whole_square_range.
  assert (H3 : [1; QcZ 3] <> []) by discriminate.
  assert (H4 : Forall (fun a => 1 <= a) [1; QcZ 3]) by (repeat constructor; by_compute).
  split; [exact H1 |]. split; [exact H2 |]. split; [exact H3 |]. split; [exact H4 |].
  exact (proj1 (generate_unit_range pow_whole (sample_terrain []) (ofZ 7) (ofZ 1) (ofZ 2)
                  [1; QcZ 3] H1 H2 H3 H4)).
Defined.

(* ================================================================== *)
(** ** The schedule and [updateVars] *)
(* ================================================================== *)

Lemma amps_closed (a : Qc) (k : nat) :
  foldl (amps_push (Fin a)) [ofZ 1] (seqZ 1 (Z.of_nat k))
  = Fin <$> (schedule_entry a <$> seqZ 0 (Z.of_nat (S k))).
Proof.
  induction k as [| k IH].
  - change (seqZ 1 (Z.of_nat 0)) with (@nil Z).
    change (seqZ 0 (Z.of_nat 1)) with [0%Z].
    cbn [foldl fmap list_fmap].
    replace (schedule_entry a 0) with 1; [reflexivity |].
    unfold schedule_entry. change (QcZ 0) with (Q2Qc 0). ring.
  - rewrite seqZ_S, foldl_app, IH. cbn [foldl].
    rewrite (seqZ_S 0 (S k)), !fmap_app. cbn [fmap list_fmap].
    unfold amps_push. f_equal.
    replace (Z.to_nat (1 + Z.of_nat k - 1)) with k by lia.
    rewrite !list_lookup_fmap, lookup_seqZ_lt by lia.
    cbn [fmap option_fmap option_map default]. unfold id.
    change (Fin (schedule_entry a (0 + Z.of_nat k)) + Fin a)%num
      with (Fin (schedule_entry a (0 + Z.of_nat k) + a)).
    apply (f_equal (fun q => [Fin q])). unfold schedule_entry.
    replace (0 + Z.of_nat (S k))%Z with (Z.of_nat k + 1)%Z by lia.
    rewrite Z.add_0_l, QcZ_add. change (QcZ 1) with (Q2Qc 1). ring.
Qed.

Lemma amps_finite (octv : Z) (a : Qc) :
  (1 <= octv)%Z ->
  amps octv (Fin a) = Fin <$> (schedule_entry a <$> seqZ 0 octv).
Proof.
  intros H. rewrite amps_unfold, amps_closed.
  by replace (Z.of_nat (S (Z.to_nat (octv - 1)))) with octv by lia.
Qed.

Lemma schedule_entry_ge_1 (a : Qc) (i : Z) :
  0 <= a -> (0 <= i)%Z -> 1 <= schedule_entry a i.
Proof.
  intros Ha Hi. unfold schedule_entry.
  pose proof (QcZ_le 0 i Hi) as H. change (QcZ 0) with (Q2Qc 0) in H.
  revert H. generalize (QcZ i). intros q Hq. to_Q. nra.
Qed.

Lemma schedule_entry_increasing (a : Qc) (i j : Z) :
  0 < a -> (i < j)%Z -> schedule_entry a i < schedule_entry a j.
Proof.
  intros Ha Hij. unfold schedule_entry.
  pose proof (QcZ_lt i j Hij) as H.
  revert H. generalize (QcZ i) (QcZ j). intros p q Hpq. to_Q. nra.
Qed.

Lemma amps_positive (octv : Z) (a : Qc) :
  0 <= a -> Forall (fun q => 0 < q) (schedule_entry a <$> seqZ 0 octv).
Proof.
  intros Ha. apply Forall_fmap, Forall_seqZ. intros i Hi. cbn.
  apply Qclt_le_trans with 1; [by_compute | apply schedule_entry_ge_1; [done | lia]].
Qed.

Lemma half_of_whole (m : Z) : QcZ m / QcZ 2 = QcZ m * Q2Qc (1 # 2).
Proof.
  unfold Qcdiv; f_equal; by apply Qc_is_canon.
Qed.

Lemma half_step_bounds (k : Z) :
  (2 <= k <= 20)%Z -> 1 <= QcZ k / QcZ 2 <= QcZ 10.
Proof.
  intros Hk. rewrite half_of_whole.
  unfold Qcle, Qcmult, QcZ. cbn [this Q2Qc]. rewrite !Qred_correct.
  destruct Hk as [Hk1 Hk2]. rewrite (Zle_Qle 2 k) in Hk1. rewrite (Zle_Qle k 20) in Hk2.
  change (inject_Z 2) with 2%Q in Hk1. change (inject_Z 20) with 20%Q in Hk2.
  change (inject_Z 10) with 10%Q. split; lra.
Qed.

Lemma schedule_entry_mono (a : Qc) (i j : Z) :
  0 <= a -> (i <= j)%Z -> schedule_entry a i <= schedule_entry a j.
Proof.
  intros Ha Hij. unfold schedule_entry.
  pose proof (QcZ_le i j Hij) as H.
  revert H. generalize (QcZ i) (QcZ j). intros p q Hpq. to_Q. nra.
Qed.

(** X11. For [octv >= 1] and a finite step [ampl >= 0], every entry of the
    amplitude array is at least 1 and the array never decreases.  With a
    step of the slider, [ampl = k/2] for a whole [k] from 2 to 20, and at
    most 10 octaves, the entry of rank [i] is [1 + i * ampl] and the array
    is strictly increasing. *)
Theorem amps_arithmetic (octv : Z) (ampl : Qc) :
  (1 <= octv)%Z -> 0 <= ampl ->
  (forall i j vi vj,
     amps octv (Fin ampl) !! i = Some vi -> amps octv (Fin ampl) !! j = Some vj ->
     (i <= j)%nat ->
     (ofZ 1 <=? vi)%num = true /\ (vi <=? vj)%num = true)
  /\ (forall k, (2 <= k <= 20)%Z -> ampl = QcZ k / QcZ 2 -> (octv <= 10)%Z ->
      amps octv (Fin ampl) = Fin <$> (schedule_entry ampl <$> seqZ 0 octv)
      /\ forall i j vi vj,
           amps octv (Fin ampl) !! i = Some vi -> amps octv (Fin ampl) !! j = Some vj ->
           (i < j)%nat -> (vi <? vj)%num = true).
Proof.
  intros Hoctv Ha. rewrite amps_finite by assumption. split.
  - intros i j vi vj. rewrite !list_lookup_fmap.
    destruct (seqZ 0 octv !! i) as [zi |] eqn:Ei; [| done].
    destruct (seqZ 0 octv !! j) as [zj |] eqn:Ej; [| done].
    apply lookup_seqZ in Ei as [-> _]. apply lookup_seqZ in Ej as [-> _].
    cbn. intros [= <-] [= <-] Hij. split.
    + apply leb_Fin, schedule_entry_ge_1; [done | lia].
    + apply leb_Fin, schedule_entry_mono; [done | lia].
  - intros k Hk Ek _. split; [reflexivity |].
    assert (Hpos : 0 < ampl).
    { destruct (half_step_bounds k Hk) as [Hlo _]. rewrite Ek.
      apply Qclt_le_trans with 1; [by_compute | exact Hlo]. }
    intros i j vi vj. rewrite !list_lookup_fmap.
    destruct (seqZ 0 octv !! i) as [zi |] eqn:Ei; [| done].
    destruct (seqZ 0 octv !! j) as [zj |] eqn:Ej; [| done].
    apply lookup_seqZ in Ei as [-> _]. apply lookup_seqZ in Ej as [-> _].
    cbn. intros [= <-] [= <-] Hij.
    apply bool_decide_eq_true_2, schedule_entry_increasing; [done | lia].
Qed.

Lemma amps_arithmetic_witness :
  (1 <= 6)%Z /\ 0 <= QcZ 7 / QcZ 2
  /\ (2 <= 7 <= 20)%Z /\ (6 <= 10)%Z
  /\ amps 6 (Fin (QcZ 7 / QcZ 2))
     = Fin <$> [1; Q2Qc (9 # 2); QcZ 8; Q2Qc (23 # 2); QcZ 15; Q2Qc (37 # 2)]
  /\ (Fin (Q2Qc (23 # 2)) <? Fin (Q2Qc (37 # 2)))%num = true
  /\ (ofZ 1 <=? Fin (Q2Qc (9 # 2)))%num = true.
Proof.
  assert (H : (1 <= 6)%Z) by lia.
  assert (Ha : 0 <= QcZ 7 / QcZ 2) by by_compute.
  assert (Hk : (2 <= 7 <= 20)%Z) by lia.
  assert (Ho : (6 <= 10)%Z) by lia.
  destruct (amps_arithmetic 6 (QcZ 7 / QcZ 2) H Ha) as (Hmono & Hslider).
  destruct (Hslider 7%Z Hk eq_refl Ho) as (E & Hinc).
  split; [exact H |]. split; [exact Ha |]. split; [exact Hk |]. split; [exact Ho |].
  split; [rewrite E; by_compute |]. split.
  - apply (Hinc 3%nat 5%nat); [by_compute | by_compute | lia].
  - apply (Hmono 1%nat 1%nat (Fin (Q2Qc (9 # 2))) (Fin (Q2Qc (9 # 2))));
      [by_compute | by_compute | lia].
Defined.

Lemma updateVars_range (Math_pow : num -> num -> num)
    (vars : Interface.vars) (terrain : Terrain.t) (a : Qc) :
  (1 <= Interface.octv vars)%Z ->
  Interface.ampl vars = Fin a -> 0 <= a ->
  (forall x y, between (-1) 1 (Terrain.noise2D terrain x y)) ->
  (forall b, 0 <= b <= 1 -> between 0 1 (Math_pow (Fin b) (Interface.expn vars))) ->
  Interface.norm vars = false
  \/ non_constant
       (Terrain.heightmap
          (Terrain.generate Math_pow terrain (Interface.seed vars) (Interface.freq vars)
             (Interface.expn vars) (amps (Interface.octv vars) (Interface.ampl vars))
             false)) ->
  forall v, v ∈ Terrain.heightmap (updateVars Math_pow vars terrain) -> between 0 1 v.
Proof.
  intros Hoctv Ea Ha Hn Hp Hcase v. unfold updateVars.
  rewrite Ea in *. rewrite amps_finite in * by assumption.
  assert (Hne : schedule_entry a <$> seqZ 0 (Interface.octv vars) <> []).
  { rewrite seqZ_cons by lia. discriminate. }
  pose proof (amps_positive (Interface.octv vars) a Ha) as Hpos.
  destruct (Interface.norm vars) eqn:En.
  - destruct Hcase as [? | Hnc]; [done |].
    by apply generate_range_normalised.
  - by apply generate_range_raw.
Qed.

(** X12. [updateVars] keeps the heights in [[0, 1]]: with [octv >= 1], a
    finite step [ampl >= 0], a noise function into [[-1, 1]] and a power
    that keeps [[0, 1]] at the exponent [expn], every value of the
    regenerated heightmap lies in [[0, 1]], provided normalisation is off
    or the grid has two distinct values. *)
Theorem updateVars_unit_range (Math_pow : num -> num -> num)
    (vars : Interface.vars) (terrain : Terrain.t) (a : Qc) :
  (1 <= Interface.octv vars)%Z ->
  Interface.ampl vars = Fin a -> 0 <= a ->
  (forall x y, between (-1) 1 (Terrain.noise2D terrain x y)) ->
  (forall b, 0 <= b <= 1 -> between 0 1 (Math_pow (Fin b) (Interface.expn vars))) ->
  Interface.norm vars = false
  \/ non_constant
       (Terrain.heightmap
          (Terrain.generate Math_pow terrain (Interface.seed vars) (Interface.freq vars)
             (Interface.expn vars) (amps (Interface.octv vars) (Interface.ampl vars))
             false)) ->
  forall v, v ∈ Terrain.heightmap (updateVars Math_pow vars terrain) -> between 0 1 v.
Proof. apply updateVars_range. Qed.

Lemma updateVars_unit_range_witness :
  let vars := Interface.mk 6 (ofZ 2) (ofZ 2) (ofZ 4) (ofZ 1) false in
  (1 <= Interface.octv vars)%Z
  /\ Interface.ampl vars = Fin (QcZ 4) /\ 0 <= QcZ 4
  /\ forall v,
       v ∈ Terrain.heightmap (updateVars pow_whole vars (sample_terrain [])) ->
       between 0 1 v.
Proof.
  intros vars.
  assert (H1 : (1 <= Interface.octv vars)%Z) by (cbn; lia).
  assert (H2 : Interface.ampl vars = Fin (QcZ 4)) by reflexivity.
  assert (H3 : 0 <= QcZ 4) by by_compute.
  split; [exact H1 |]. split; [exact H2 |]. split; [exact H3 |].
  exact (updateVars_unit_range pow_whole vars (sample_terrain []) (QcZ 4) H1 H2 H3
           sample_noise_range pow_whole_square_range (or_introl eq_refl)).
Defined.

(* ================================================================== *)
(** ** [update]: the presentation mode *)
(* ================================================================== *)

Lemma this_mul_QcZ (r : Qc) (k : Z) : (this (r * QcZ k) == r * inject_Z k)%Q.
Proof. unfold Qcmult, QcZ. cbn [this Q2Qc]. by rewrite !Qred_correct. Qed.

Lemma whole_ofZ (z : Z) : whole (ofZ z) = z.
Proof.
  unfold whole, ofZ. cbn [this Q2Qc].
  rewrite (Qfloor_comp _ _ (Qred_correct (inject_Z z))). apply Qfloor_Z.
Qed.

Lemma ofZ_add (a b : Z) : (ofZ a + ofZ b)%num = ofZ (a + b).
Proof. unfold ofZ. cbn [add]. f_equal. symmetry. apply QcZ_add. Qed.

(** [Math.floor(r * k)] for a value [r] of [Math.random()]. *)
Lemma floor_scaled (r : Qc) (k : Z) :
  0 <= r -> r < 1 -> (0 < k)%Z -> (0 <= Qfloor (r * QcZ k)%Qc < k)%Z.
Proof.
  intros H0 H1 Hk.
  assert (Hk' : (inject_Z 0 < inject_Z k)%Q) by (by rewrite <- Zlt_Qlt).
  change (inject_Z 0) with 0%Q in Hk'.
  assert (Hlo : (0 <= this (r * QcZ k))%Q).
  { rewrite this_mul_QcZ. apply Qmult_le_0_compat; [exact H0 | lra]. }
  assert (Hhi : (this (r * QcZ k) < inject_Z k)%Q).
  { rewrite this_mul_QcZ. unfold Qclt in H1. change (this 1) with 1%Q in H1. nra. }
  split.
  - pose proof (Qfloor_resp_le 0 _ Hlo) as H.
    change (Qfloor 0) with 0%Z in H. exact H.
  - rewrite Zlt_Qlt. eapply Qle_lt_trans; [apply Qfloor_le | exact Hhi].
Qed.

Lemma floor_draw (r : Qc) (k : Z) :
  (Math_floor (Fin r * ofZ k) + ofZ 1)%num = ofZ (Qfloor (r * QcZ k)%Qc + 1).
Proof.
  change (Fin r * ofZ k)%num with (Fin (r * QcZ k)).
  cbn [Math_floor]. apply ofZ_add.
Qed.

(** [Math.round(q)] for [0 <= q < 20]. *)
Lemma round_scaled (q : Qc) :
  0 <= q -> q < QcZ 20 -> (0 <= Qfloor (q + Q2Qc (1 # 2)) <= 20)%Z.
Proof.
  intros H0 H1.
  unfold Qcle in H0. unfold Qclt in H1.
  change (this 0) with 0%Q in H0. change (this (QcZ 20)) with 20%Q in H1.
  change (this (Q2Qc (1 # 2))) with (1 # 2)%Q.
  split.
  - assert (Hlo : (0 <= q + (1 # 2))%Q) by lra.
    pose proof (Qfloor_resp_le 0 _ Hlo) as H.
    change (Qfloor 0) with 0%Z in H. exact H.
  - apply Z.lt_succ_r. rewrite Zlt_Qlt.
    eapply Qle_lt_trans; [apply Qfloor_le |].
    change (inject_Z (Z.succ 20)) with 21%Q. lra.
Qed.

Lemma draw_times_20 (r : Qc) :
  0 <= r -> r < 1 -> 0 <= r * QcZ 10 * QcZ 2 /\ r * QcZ 10 * QcZ 2 < QcZ 20.
Proof.
  intros H0 H1.
  replace (r * QcZ 10 * QcZ 2) with (r * QcZ 20)
    by (rewrite <- Qcmult_assoc; f_equal; by apply Qc_is_canon).
  assert (E : (this (QcZ 20) == 20)%Q) by reflexivity.
  unfold Qcle, Qclt, Qcmult in *. cbn [this Q2Qc].
  rewrite !Qred_correct, E.
  change (this 0) with 0%Q in *. change (this 1) with 1%Q in *. split; lra.
Qed.

Lemma half_gt_1 (m : Z) : 1 < QcZ m / QcZ 2 <-> (2 < m)%Z.
Proof.
  rewrite half_of_whole. unfold Qclt, Qcmult, QcZ. cbn [this Q2Qc].
  rewrite !Qred_correct. rewrite (Zlt_Qlt 2 m).
  change (inject_Z 2) with 2%Q. split; intros H; lra.
Qed.

(** The value drawn for [ampl], [freq] and [expn] is a half-integer
    between 1 and 10. *)
Lemma random_half_step_value (r : Qc) :
  0 <= r -> r < 1 ->
  exists k, (2 <= k <= 20)%Z /\ random_half_step r = Fin (QcZ k / QcZ 2).
Proof.
  intros H0 H1. destruct (draw_times_20 r H0 H1) as [Hq0 Hq1].
  pose proof (round_scaled _ Hq0 Hq1) as Hm.
  unfold random_half_step.
  change ((Fin r * ofZ 10) * ofZ 2)%num with (Fin (r * QcZ 10 * QcZ 2)).
  cbn [Math_round]. revert Hm.
  generalize (Qfloor ((r * QcZ 10 * QcZ 2)%Qc + Q2Qc (1 # 2))). intros m Hm.
  change (ofZ m / ofZ 2)%num with (Fin (QcZ m) / Fin (QcZ 2))%num.
  rewrite div_Fin by discriminate.
  unfold Math_max. cbn [foldl].
  change (max2 NInf (ofZ 1)) with (Fin 1). unfold max2, ltb.
  destruct (decide (2 < m)%Z) as [Hgt | Hle].
  - exists m. split; [lia |].
    by rewrite bool_decide_eq_true_2 by (by apply half_gt_1).
  - exists 2%Z. split; [lia |].
    rewrite bool_decide_eq_false_2 by (by rewrite half_gt_1).
    f_equal. by apply Qc_is_canon.
Qed.

Section Update.

Variable Math_pow : num -> num -> num.
Variable seeded : num -> num -> num -> num.
Variable random : nat -> Qc.

Lemma update_off (time : num) (page : Page.t) :
  Page.prst page = false -> update Math_pow seeded random time page = page.
Proof. intros E. unfold update. by rewrite E. Qed.

(** While the test [time - timestamp >= 5000] fails, the presentation
    mode only turns the mesh. *)
Lemma update_waits (time : num) (page : Page.t) :
  Page.prst page = true ->
  geb (time - Page.timestamp page)%num (ofZ 5000) = false ->
  update Math_pow seeded random time page = Page.rotateY page.
Proof.
  intros Ep H. unfold update. rewrite Ep. cbv zeta.
  change (Page.timestamp (Page.rotateY page)) with (Page.timestamp page).
  by rewrite H.
Qed.

Lemma geb_NaN (a b : num) : geb (NaN - a)%num b = false.
Proof. unfold geb. by destruct a, b. Qed.

Lemma update_fires (t ts : Qc) (page : Page.t) :
  Page.prst page = true -> Page.timestamp page = Fin ts -> QcZ 5000 <= t - ts ->
  update Math_pow seeded random (Fin t) page
  = let n := Page.drawn page in
    let vars :=
      Interface.mk
        (whole (Math_floor (Fin (random (n + 1)%nat) * ofZ 10) + ofZ 1)%num)
        (random_half_step (random (n + 3)%nat))
        (random_half_step (random (n + 4)%nat))
        (random_half_step (random (n + 2)%nat))
        (Math_floor (Fin (random n) * ofZ 1000) + ofZ 1)%num
        (Interface.norm (Page.vars page)) in
    Page.mk vars true (Fin t)
      (updateSeed Math_pow seeded vars (Page.terrain page)) (n + 5)%nat
      (S (Page.rotations page)).
Proof.
  intros Ep Et H. unfold update. rewrite Ep. cbv zeta.
  change (Page.timestamp (Page.rotateY page)) with (Page.timestamp page).
  change (Page.prst (Page.rotateY page)) with (Page.prst page).
  change (Page.drawn (Page.rotateY page)) with (Page.drawn page).
  change (Page.vars (Page.rotateY page)) with (Page.vars page).
  change (Page.terrain (Page.rotateY page)) with (Page.terrain page).
  change (Page.rotations (Page.rotateY page)) with (S (Page.rotations page)).
  rewrite Ep, Et. unfold geb.
  change (Fin t - Fin ts)%num with (Fin (t - ts)).
  change (ofZ 5000) with (Fin (QcZ 5000)). cbn [leb].
  by rewrite bool_decide_eq_true_2.
Qed.

End Update.

(** X13. Outside its redraws [update] only turns the mesh.  It changes
    nothing when the presentation mode is off.  When the mode is on and
    the test [time - timestamp >= 5000] fails, as it does when [time] is
    not a number (the first frame, which [render] requests without a
    time), it turns the mesh by one step of [Math.PI / 1000] and leaves
    the variables, the presentation flag, the timestamp, the terrain and
    the values drawn from [Math.random] as they are. *)
Theorem update_idle (Math_pow : num -> num -> num)
    (seeded : num -> num -> num -> num) (random : nat -> Qc) (page : Page.t) :
  (forall time, Page.prst page = false ->
     update Math_pow seeded random time page = page)
  /\ (forall time, Page.prst page = true ->
        geb (time - Page.timestamp page)%num (ofZ 5000) = false ->
        update Math_pow seeded random time page = Page.rotateY page)
  /\ (Page.prst page = true ->
      update Math_pow seeded random NaN page = Page.rotateY page)
  /\ Page.vars (Page.rotateY page) = Page.vars page
  /\ Page.prst (Page.rotateY page) = Page.prst page
  /\ Page.timestamp (Page.rotateY page) = Page.timestamp page
  /\ Page.terrain (Page.rotateY page) = Page.terrain page
  /\ Page.drawn (Page.rotateY page) = Page.drawn page
  /\ Page.rotations (Page.rotateY page) = S (Page.rotations page).
Proof.
  split; [intros time; apply update_off |].
  split; [intros time; apply update_waits |].
  split; [| repeat split].
  intros Ep. apply update_waits; [exact Ep | apply geb_NaN].
Qed.

Lemma update_idle_witness :
  let page := Page.mk (Interface.mk 6 (ofZ 2) (ofZ 4) (ofZ 4) (ofZ 1) true) true
                (ofZ 1000) (sample_terrain []) 0 3 in
  Page.prst page = true
  /\ geb (ofZ 5999 - Page.timestamp page)%num (ofZ 5000) = false
  /\ update pow_whole (fun _ => sample_noise) (fun _ => Q2Qc (1 # 5)) (ofZ 5999) page
     = Page.mk (Interface.mk 6 (ofZ 2) (ofZ 4) (ofZ 4) (ofZ 1) true) true
         (ofZ 1000) (sample_terrain []) 0 4.
Proof.
  intros page.
  assert (H1 : Page.prst page = true) by reflexivity.
  assert (H2 : geb (ofZ 5999 - Page.timestamp page)%num (ofZ 5000) = false)
    by (vm_compute; reflexivity).
  split; [exact H1 |]. split; [exact H2 |].
  destruct (update_idle pow_whole (fun _ => sample_noise) (fun _ => Q2Qc (1 # 5)) page)
    as (_ & Hwait & _).
  exact (Hwait (ofZ 5999) H1 H2).
Defined.

(** X14. When the presentation mode is on and at least 5000 ms have passed,
    [update] turns the mesh by one step, records the time, takes five
    values from [Math.random] and redraws the variables inside the ranges
    of their sliders: [seed] is a whole number from 1 to 1000, [octv] a
    whole number from 1 to 10, and [ampl], [freq] and [expn] are halves
    [k/2] with [2 <= k <= 20]; the normalisation flag and the level of
    detail are kept, the heightmap has [lod * lod] values, and a later
    call for which the test [time - timestamp >= 5000] fails against the
    recorded time only turns the mesh. *)
Theorem update_randomises (Math_pow : num -> num -> num)
    (seeded : num -> num -> num -> num) (random : nat -> Qc)
    (t ts : Qc) (page : Page.t) :
  Page.prst page = true -> Page.timestamp page = Fin ts -> QcZ 5000 <= t - ts ->
  (forall n, 0 <= random n /\ random n < 1) ->
  let after := update Math_pow seeded random (Fin t) page in
  Page.timestamp after = Fin t
  /\ Page.prst after = true
  /\ Page.drawn after = (Page.drawn page + 5)%nat
  /\ Page.rotations after = S (Page.rotations page)
  /\ (exists s, (1 <= s <= 1000)%Z /\ Interface.seed (Page.vars after) = ofZ s)
  /\ (1 <= Interface.octv (Page.vars after) <= 10)%Z
  /\ (exists k, (2 <= k <= 20)%Z
                /\ Interface.ampl (Page.vars after) = Fin (QcZ k / QcZ 2))
  /\ (exists k, (2 <= k <= 20)%Z
                /\ Interface.freq (Page.vars after) = Fin (QcZ k / QcZ 2))
  /\ (exists k, (2 <= k <= 20)%Z
                /\ Interface.expn (Page.vars after) = Fin (QcZ k / QcZ 2))
  /\ Interface.norm (Page.vars after) = Interface.norm (Page.vars page)
  /\ Terrain.lod (Page.terrain after) = Terrain.lod (Page.terrain page)
  /\ length (Terrain.heightmap (Page.terrain after))
     = Z.to_nat (Terrain.lod (Page.terrain page) * Terrain.lod (Page.terrain page))
  /\ (forall time, geb (time - Fin t)%num (ofZ 5000) = false ->
        update Math_pow seeded random time after = Page.rotateY after).
Proof.
  intros Ep Et Hel Hr after. subst after.
  rewrite (update_fires _ _ _ t ts page Ep Et Hel). cbn zeta.
  cbn [Page.timestamp Page.prst Page.drawn Page.vars Page.terrain Page.rotations
       Interface.seed Interface.octv Interface.ampl Interface.freq Interface.expn
       Interface.norm].
  repeat match goal with |- _ /\ _ => split end; try reflexivity.
  - destruct (Hr (Page.drawn page)) as [H0 H1].
    exists (Qfloor (random (Page.drawn page) * QcZ 1000)%Qc + 1)%Z.
    split; [| apply floor_draw].
    pose proof (floor_scaled _ 1000 H0 H1). lia.
  - destruct (Hr (Page.drawn page + 1)%nat) as [H0 H1].
    rewrite floor_draw, whole_ofZ.
    pose proof (floor_scaled _ 10 H0 H1). lia.
  - destruct (Hr (Page.drawn page + 1)%nat) as [H0 H1].
    rewrite floor_draw, whole_ofZ.
    pose proof (floor_scaled _ 10 H0 H1). lia.
  - destruct (Hr (Page.drawn page + 2)%nat) as [H0 H1].
    by apply random_half_step_value.
  - destruct (Hr (Page.drawn page + 3)%nat) as [H0 H1].
    by apply random_half_step_value.
  - destruct (Hr (Page.drawn page + 4)%nat) as [H0 H1].
    by apply random_half_step_value.
  - unfold updateSeed, updateVars. by rewrite generate_length.
  - intros time Ht. by apply update_waits.
Qed.

Lemma update_randomises_witness :
  let page := Page.mk (Interface.mk 6 (ofZ 2) (ofZ 4) (ofZ 4) (ofZ 1) true) true
                (ofZ 1000) (sample_terrain []) 0 3 in
  let random := fun n : nat => if Nat.even n then Q2Qc (1 # 5) else Q2Qc (999 # 1000) in
  let after := update pow_whole (fun _ => sample_noise) random (ofZ 6000) page in
  Page.prst page = true /\ Page.timestamp page = Fin (QcZ 1000)
  /\ QcZ 5000 <= QcZ 6000 - QcZ 1000
  /\ (forall n, 0 <= random n /\ random n < 1)
  /\ Page.timestamp after = Fin (QcZ 6000)
  /\ Page.rotations after = 4%nat
  /\ (1 <= Interface.octv (Page.vars after) <= 10)%Z
  /\ Interface.seed (Page.vars after) = ofZ 201
  /\ Interface.expn (Page.vars after) = ofZ 2.
Proof.
  intros page random after.
  assert (H1 : Page.prst page = true) by reflexivity.
  assert (H2 : Page.timestamp page = Fin (QcZ 1000)) by reflexivity.
  assert (H3 : QcZ 5000 <= QcZ 6000 - QcZ 1000) by by_compute.
  assert (H4 : forall n, 0 <= random n /\ random n < 1).
  { intros n. unfold random. destruct (Nat.even n); split; by_compute. }
  destruct (update_randomises pow_whole (fun _ => sample_noise) random
              (QcZ 6000) (QcZ 1000) page H1 H2 H3 H4)
    as (Ht & _ & _ & Hrot & _ & Hoctv & _).
  split; [exact H1 |]. split; [exact H2 |]. split; [exact H3 |]. split; [exact H4 |].
  split; [exact Ht |]. split; [exact Hrot |]. split; [exact Hoctv |].
  split; by_compute.
Defined.

(** The heightmap left by [generate] only depends on the level of detail
    and on the values of the noise function of the terrain. *)
Lemma generate_heightmap_ext (Math_pow : num -> num -> num) (this other : Terrain.t)
    (seed seed' frequency exponent : num) (amplitudes : list num) (normalise : bool) :
  Terrain.lod this = Terrain.lod other ->
  (forall x y, Terrain.noise2D this x y = Terrain.noise2D other x y) ->
  Terrain.heightmap
    (Terrain.generate Math_pow this seed frequency exponent amplitudes normalise)
  = Terrain.heightmap
      (Terrain.generate Math_pow other seed' frequency exponent amplitudes normalise).
Proof.
  intros Hlod Hnoise.
  assert (E : Terrain.heightmap
                (Terrain.generate Math_pow this seed frequency exponent amplitudes false)
              = Terrain.heightmap
                  (Terrain.generate Math_pow other seed' frequency exponent amplitudes false)).
  { rewrite !generate_nvs, <- Hlod. apply list_fmap_ext. intros _ i _.
    unfold Terrain.generate_cell. rewrite <- Hlod. by apply Noise_ext. }
  destruct normalise; [| exact E].
  by rewrite !generate_normalised, E.
Qed.

(** What [update] leaves when it redraws the variables. *)
Lemma update_redraw_facts (Math_pow : num -> num -> num)
    (seeded : num -> num -> num -> num) (random : nat -> Qc)
    (t ts : Qc) (page : Page.t) :
  Page.prst page = true -> Page.timestamp page = Fin ts -> QcZ 5000 <= t - ts ->
  (forall n, 0 <= random n /\ random n < 1) ->
  let after := update Math_pow seeded random (Fin t) page in
  let vars := Page.vars after in
  Page.terrain after = updateSeed Math_pow seeded vars (Page.terrain page)
  /\ (1 <= Interface.octv vars)%Z
  /\ exists a, 0 <= a /\ Interface.ampl vars = Fin a.
Proof.
  intros Ep Et Hel Hr after vars. subst vars after.
  rewrite (update_fires _ _ _ t ts page Ep Et Hel). cbn zeta.
  cbn [Page.vars Page.terrain Interface.octv Interface.ampl].
  split; [reflexivity |]. split.
  - destruct (Hr (Page.drawn page + 1)%nat) as [H0 H1].
    rewrite floor_draw, whole_ofZ.
    pose proof (floor_scaled _ 10 H0 H1). lia.
  - destruct (Hr (Page.drawn page + 2)%nat) as [H0 H1].
    destruct (random_half_step_value _ H0 H1) as (k & Hk & ->).
    exists (QcZ k / QcZ 2). split; [| reflexivity].
    destruct (half_step_bounds k Hk) as [Hlo _].
    apply Qcle_trans with 1; [by_compute | exact Hlo].
Qed.

(** X15. In presentation mode the regenerated heights stay in [[0, 1]]:
    when [update] redraws the variables from values of [Math.random] in
    [[0, 1)], with seeded noise functions into [[-1, 1]] and a power that
    keeps [[0, 1]] at the exponent drawn, every value of the new heightmap
    lies in [[0, 1]], provided normalisation is off or the new grid has two
    distinct values. *)
Theorem update_unit_range (Math_pow : num -> num -> num)
    (seeded : num -> num -> num -> num) (random : nat -> Qc)
    (t ts : Qc) (page : Page.t) :
  Page.prst page = true -> Page.timestamp page = Fin ts -> QcZ 5000 <= t - ts ->
  (forall n, 0 <= random n /\ random n < 1) ->
  (forall s x y, between (-1) 1 (seeded s x y)) ->
  let after := update Math_pow seeded random (Fin t) page in
  let vars := Page.vars after in
  (forall b, 0 <= b <= 1 -> between 0 1 (Math_pow (Fin b) (Interface.expn vars))) ->
  Interface.norm (Page.vars page) = false
  \/ non_constant
       (Terrain.heightmap
          (Terrain.generate Math_pow (Page.terrain after) (Interface.seed vars)
             (Interface.freq vars) (Interface.expn vars)
             (amps (Interface.octv vars) (Interface.ampl vars)) false)) ->
  forall v, v ∈ Terrain.heightmap (Page.terrain after) -> between 0 1 v.
Proof.
  intros Ep Et Hel Hr Hn after vars Hp Hcase v.
  destruct (update_redraw_facts Math_pow seeded random t ts page Ep Et Hel Hr)
    as (Eafter & Hoctv & a & Ha & Eampl).
  fold after in Eafter, Hoctv, Eampl. fold vars in Eafter, Hoctv, Eampl.
  rewrite Eafter. cbn [Page.terrain]. unfold updateSeed.
  apply (updateVars_range Math_pow vars _ a); try assumption.
  - intros x y. apply Hn.
  - destruct Hcase as [E | Hnc]; [left | right].
    + rewrite <- E. unfold vars, after.
      by rewrite (update_fires _ _ _ t ts page Ep Et Hel).
    + erewrite generate_heightmap_ext; [exact Hnc | |].
      * by rewrite Eafter.
      * intros x y. by rewrite Eafter.
Qed.

Lemma update_unit_range_witness :
  let page := Page.mk (Interface.mk 6 (ofZ 2) (ofZ 4) (ofZ 4) (ofZ 1) false) true
                (ofZ 1000) (sample_terrain []) 0 0 in
  let random := fun n : nat => if Nat.even n then Q2Qc (1 # 5) else Q2Qc (999 # 1000) in
  let after := update pow_whole (fun _ => sample_noise) random (ofZ 6000) page in
  Page.prst page = true /\ Page.timestamp page = Fin (QcZ 1000)
  /\ QcZ 5000 <= QcZ 6000 - QcZ 1000
  /\ (forall n, 0 <= random n /\ random n < 1)
  /\ (forall b, 0 <= b <= 1 ->
        between 0 1 (pow_whole (Fin b) (Interface.expn (Page.vars after))))
  /\ Interface.norm (Page.vars page) = false
  /\ forall v, v ∈ Terrain.heightmap (Page.terrain after) -> between 0 1 v.
Proof.
  intros page random after.
  assert (H1 : Page.prst page = true) by reflexivity.
  assert (H2 : Page.timestamp page = Fin (QcZ 1000)) by reflexivity.
  assert (H3 : QcZ 5000 <= QcZ 6000 - QcZ 1000) by by_compute.
  assert (H4 : forall n, 0 <= random n /\ random n < 1).
  { intros n. unfold random. destruct (Nat.even n); split; by_compute. }
  assert (H5 : forall s x y, between (-1) 1 ((fun _ : num => sample_noise) s x y)).
  { intros _. exact sample_noise_range. }
  assert (E : Interface.expn (Page.vars after) = ofZ 2) by by_compute.
  assert (H6 : forall b, 0 <= b <= 1 ->
                 between 0 1 (pow_whole (Fin b) (Interface.expn (Page.vars after)))).
  { rewrite E. exact pow_whole_square_range. }
  assert (H7 : Interface.norm (Page.vars page) = false) by reflexivity.
  split; [exact H1 |]. split; [exact H2 |]. split; [exact H3 |]. split; [exact H4 |].
  split; [exact H6 |]. split; [exact H7 |].
  exact (update_unit_range pow_whole (fun _ => sample_noise) random
           (QcZ 6000) (QcZ 1000) page H1 H2 H3 H4 H5 H6 (or_introl H7)).
Defined.

(* ================================================================== *)
(** ** [Interface.updateHeightmap] *)
(* ================================================================== *)

Lemma updateHeightmap_turn_app (heightmap : list num) (filled : list Z) (i m : nat) (v : num) :
  length filled = (i * 4)%nat -> heightmap !! i = Some v ->
  updateHeightmap_turn heightmap (filled ++ replicate (4 * S m) 0%Z) i
  = (filled ++ grey_pixel v) ++ replicate (4 * m) 0%Z.
Proof.
  intros Hlen Hv. unfold updateHeightmap_turn. rewrite Hv. cbn [default].
  replace (4 * S m)%nat with (S (S (S (S (4 * m))))) by lia.
  cbn [replicate].
  rewrite !insert_app_r_alt by (rewrite ?length_insert, ?length_app; lia).
  rewrite Hlen.
  replace (i * 4 - i * 4)%nat with 0%nat by lia.
  replace (i * 4 + 1 - i * 4)%nat with 1%nat by lia.
  replace (i * 4 + 2 - i * 4)%nat with 2%nat by lia.
  replace (i * 4 + 3 - i * 4)%nat with 3%nat by lia.
  cbn. by rewrite <- app_assoc.
Qed.

Lemma updateHeightmap_prefix (heightmap : list num) (k : nat) :
  (k <= length heightmap)%nat ->
  foldl (updateHeightmap_turn heightmap)
        (replicate (4 * length heightmap) 0%Z) (seq 0 k)
  = concat (grey_pixel <$> take k heightmap)
    ++ replicate (4 * (length heightmap - k)) 0%Z.
Proof.
  induction k as [| k IH]; intros Hk.
  - cbn. by rewrite Nat.sub_0_r.
  - rewrite seq_S, foldl_app, IH by lia. cbn [foldl].
    destruct (lookup_lt_is_Some_2 heightmap k) as [v Hv]; [lia |].
    replace (length heightmap - k)%nat with (S (length heightmap - S k)) by lia.
    rewrite (updateHeightmap_turn_app _ _ _ _ v); [| | exact Hv].
    + rewrite (take_S_r _ _ _ Hv), fmap_app, concat_app. cbn [fmap list_fmap concat].
      by rewrite app_nil_r.
    + clear IH. revert Hk. generalize k. clear.
      intros k. revert heightmap. induction k as [| k IH]; intros heightmap Hk; [done |].
      destruct heightmap as [| v heightmap]; [cbn in Hk; lia |].
      cbn [take fmap list_fmap concat]. rewrite length_app, IH by (cbn in Hk; lia).
      cbn. lia.
Qed.

(** The array handed to the canvas is the sequence of the pixels of the
    heights. *)
Lemma updateHeightmap_pixels (heightmap : list num) :
  updateHeightmap heightmap = concat (grey_pixel <$> heightmap).
Proof.
  unfold updateHeightmap. rewrite updateHeightmap_prefix by lia.
  rewrite Nat.sub_diag, firstn_all. apply app_nil_r.
Qed.

Lemma concat_pixels_lookup (heightmap : list num) (i k : nat) (v : num) :
  heightmap !! i = Some v -> (k < 4)%nat ->
  concat (grey_pixel <$> heightmap) !! (4 * i + k)%nat = grey_pixel v !! k.
Proof.
  revert i. induction heightmap as [| w heightmap IH]; intros i Hv Hk; [done |].
  cbn [fmap list_fmap concat]. destruct i as [| i].
  - injection Hv as ->. rewrite lookup_app_l by (cbn; lia). by rewrite Nat.add_0_l.
  - rewrite lookup_app_r by (cbn; lia).
    replace (4 * S i + k - length (grey_pixel w))%nat with (4 * i + k)%nat by (cbn; lia).
    by apply IH.
Qed.

Lemma concat_pixels_length (heightmap : list num) :
  length (concat (grey_pixel <$> heightmap)) = (4 * length heightmap)%nat.
Proof.
  induction heightmap as [| v heightmap IH]; [done |].
  cbn [fmap list_fmap concat]. rewrite length_app, IH. cbn. lia.
Qed.

Lemma ToUint8_range (z : Z) : (0 <= ToUint8 z <= 255)%Z.
Proof. unfold ToUint8. pose proof (Z.mod_pos_bound z 256). lia. Qed.

(** [~~(q * 255)] for a height [q] of [[0, 1]]. *)
Lemma grey_level_unit (q : Qc) :
  0 <= q -> q <= 1 ->
  ToUint8 (ToInt32 (Fin q * ofZ 255)%num) = Qfloor (q * QcZ 255)%Qc
  /\ (0 <= Qfloor (q * QcZ 255)%Qc <= 255)%Z.
Proof.
  intros H0 H1.
  change (Fin q * ofZ 255)%num with (Fin (q * QcZ 255)).
  assert (Hlo : (0 <= this (q * QcZ 255))%Q).
  { rewrite this_mul_QcZ. apply Qmult_le_0_compat; [exact H0 | done]. }
  assert (Hhi : (this (q * QcZ 255) <= inject_Z 255)%Q).
  { rewrite this_mul_QcZ. unfold Qcle in H1. change (this 1) with 1%Q in H1.
    change (inject_Z 255) with 255%Q. lra. }
  assert (Hfl : (0 <= Qfloor (q * QcZ 255)%Qc <= 255)%Z).
  { split.
    - pose proof (Qfloor_resp_le 0 _ Hlo) as H. change (Qfloor 0) with 0%Z in H. exact H.
    - pose proof (Qfloor_resp_le _ _ Hhi) as H. by rewrite Qfloor_Z in H. }
  split; [| exact Hfl].
  assert (Htr : truncate (q * QcZ 255) = Qfloor (q * QcZ 255)%Qc).
  { unfold truncate, Qfloor. destruct (this (q * QcZ 255)) as [n d] eqn:E.
    cbn [Qnum Qden]. apply Z.quot_div_nonneg; [| done].
    unfold Qle in Hlo. cbn in Hlo. lia. }
  cbn [ToInt32]. rewrite Htr. unfold ToUint8.
  rewrite (Z.mod_small (_ + 2 ^ 31)) by lia.
  rewrite Z.mod_small by lia. lia.
Qed.

(** X16. [updateHeightmap] builds four bytes per height, in order: the
    array has [4 * n] entries, and the pixel of the height of rank [i] has
    its three colour bytes equal to one grey level between 0 and 255 and
    its alpha byte equal to 255. *)
Theorem updateHeightmap_layout (heightmap : list num) (i : nat) (v : num) :
  heightmap !! i = Some v ->
  length (updateHeightmap heightmap) = (4 * length heightmap)%nat
  /\ exists col,
       (0 <= col <= 255)%Z
       /\ updateHeightmap heightmap !! (4 * i)%nat = Some col
       /\ updateHeightmap heightmap !! (4 * i + 1)%nat = Some col
       /\ updateHeightmap heightmap !! (4 * i + 2)%nat = Some col
       /\ updateHeightmap heightmap !! (4 * i + 3)%nat = Some 255%Z.
Proof.
  intros Hv. rewrite updateHeightmap_pixels.
  split; [apply concat_pixels_length |].
  exists (ToUint8 (ToInt32 (v * ofZ 255)%num)).
  split; [apply ToUint8_range |].
  rewrite <- (Nat.add_0_r (4 * i)) at 1.
  rewrite !(concat_pixels_lookup _ _ _ v Hv) by lia. done.
Qed.

Lemma updateHeightmap_layout_witness :
  [Fin (Q2Qc (1 # 2)); NaN; ofZ 1; ofZ 2] !! 3%nat = Some (ofZ 2)
  /\ length (updateHeightmap [Fin (Q2Qc (1 # 2)); NaN; ofZ 1; ofZ 2]) = 16%nat
  /\ exists col,
       (0 <= col <= 255)%Z
       /\ updateHeightmap [Fin (Q2Qc (1 # 2)); NaN; ofZ 1; ofZ 2] !! 12%nat = Some col
       /\ updateHeightmap [Fin (Q2Qc (1 # 2)); NaN; ofZ 1; ofZ 2] !! 15%nat = Some 255%Z.
Proof.
  assert (H : [Fin (Q2Qc (1 # 2)); NaN; ofZ 1; ofZ 2] !! 3%nat = Some (ofZ 2))
    by reflexivity.
  destruct (updateHeightmap_layout _ 3 (ofZ 2) H) as (Hlen & col & Hc & H0 & _ & _ & H3).
  split; [exact H |]. split; [exact Hlen |].
  exists col. split; [exact Hc |]. split; [exact H0 | exact H3].
Defined.

(** X17. For heights in [[0, 1]] the grey level is [floor(255 * height)]:
    it grows with the height, is 0 for the height 0 and 255 for the
    height 1, and needs no wrap. *)
Theorem updateHeightmap_grey_levels (heightmap : list num) (i j : nat) (p q : Qc) :
  heightmap !! i = Some (Fin p) -> heightmap !! j = Some (Fin q) ->
  0 <= p -> p <= q -> q <= 1 ->
  updateHeightmap heightmap !! (4 * i)%nat = Some (Qfloor (p * QcZ 255)%Qc)
  /\ updateHeightmap heightmap !! (4 * j)%nat = Some (Qfloor (q * QcZ 255)%Qc)
  /\ (0 <= Qfloor (p * QcZ 255)%Qc <= Qfloor (q * QcZ 255)%Qc)%Z
  /\ (Qfloor (q * QcZ 255)%Qc <= 255)%Z
  /\ (p = 0 -> Qfloor (p * QcZ 255)%Qc = 0%Z)
  /\ (q = 1 -> Qfloor (q * QcZ 255)%Qc = 255%Z).
Proof.
  intros Hi Hj Hp Hpq Hq.
  assert (Hp1 : p <= 1) by (by apply Qcle_trans with q).
  assert (Hq0 : 0 <= q) by (by apply Qcle_trans with p).
  destruct (grey_level_unit p Hp Hp1) as [Ep Hbp].
  destruct (grey_level_unit q Hq0 Hq) as [Eq Hbq].
  rewrite updateHeightmap_pixels.
  rewrite <- (Nat.add_0_r (4 * i)), <- (Nat.add_0_r (4 * j)).
  rewrite (concat_pixels_lookup _ _ _ _ Hi), (concat_pixels_lookup _ _ _ _ Hj) by lia.
  cbn [grey_pixel lookup list_lookup]. rewrite Ep, Eq.
  repeat match goal with |- _ /\ _ => split end; try reflexivity; try lia.
  - apply Qfloor_resp_le. rewrite !this_mul_QcZ.
    apply Qmult_le_compat_r; [exact Hpq | done].
  - intros ->. reflexivity.
  - intros ->. reflexivity.
Qed.

Lemma updateHeightmap_grey_levels_witness :
  let heightmap := [Fin (Q2Qc (1 # 2)); NaN; ofZ 1] in
  heightmap !! 0%nat = Some (Fin (Q2Qc (1 # 2))) /\ heightmap !! 2%nat = Some (Fin 1)
  /\ 0 <= Q2Qc (1 # 2) /\ Q2Qc (1 # 2) <= 1 /\ 1 <= 1
  /\ updateHeightmap heightmap !! 0%nat = Some 127%Z
  /\ updateHeightmap heightmap !! 8%nat = Some 255%Z.
Proof.
  intros heightmap.
  assert (H1 : heightmap !! 0%nat = Some (Fin (Q2Qc (1 # 2)))) by reflexivity.
  assert (H2 : heightmap !! 2%nat = Some (Fin 1)) by reflexivity.
  assert (H3 : 0 <= Q2Qc (1 # 2)) by by_compute.
  assert (H4 : Q2Qc (1 # 2) <= 1) by by_compute.
  assert (H5 : 1 <= 1) by by_compute.
  destruct (updateHeightmap_grey_levels heightmap 0 2 _ _ H1 H2 H3 H4 H5)
    as (E1 & E2 & _).
  split; [exact H1 |]. split; [exact H2 |]. split; [exact H3 |].
  split; [exact H4 |]. split; [exact H5 |].
  split; [exact E1 | exact E2].
Defined.

(** X18. A height that is NaN or infinite is painted black: its three
    colour bytes are 0 and its pixel stays opaque.  Hence the heightmap of
    NaN that normalisation makes of a flat grid gives an all-black image. *)
Theorem updateHeightmap_not_finite (heightmap : list num) (i : nat) (v : num) :
  heightmap !! i = Some v -> (forall q, v <> Fin q) ->
  updateHeightmap heightmap !! (4 * i)%nat = Some 0%Z
  /\ updateHeightmap heightmap !! (4 * i + 1)%nat = Some 0%Z
  /\ updateHeightmap heightmap !! (4 * i + 2)%nat = Some 0%Z
  /\ updateHeightmap heightmap !! (4 * i + 3)%nat = Some 255%Z.
Proof.
  intros Hv Hnf. rewrite updateHeightmap_pixels.
  rewrite <- (Nat.add_0_r (4 * i)) at 1.
  rewrite !(concat_pixels_lookup _ _ _ v Hv) by lia.
  destruct v as [q | | |]; [by destruct (Hnf q) | done..].
Qed.

Lemma updateHeightmap_not_finite_witness :
  let heightmap :=
    Terrain.heightmap
      (Terrain.generate pow_whole (Terrain.mk [] 1 sample_noise)
         (ofZ 7) (ofZ 1) (ofZ 2) [ofZ 1; ofZ 3] true) in
  heightmap !! 0%nat = Some NaN /\ (forall q, NaN <> Fin q)
  /\ updateHeightmap heightmap = [0; 0; 0; 255]%Z.
Proof.
  intros heightmap.
  assert (H1 : heightmap !! 0%nat = Some NaN) by by_compute.
  assert (H2 : forall q, NaN <> Fin q) by discriminate.
  destruct (updateHeightmap_not_finite heightmap 0 NaN H1 H2) as (E0 & E1 & E2 & E3).
  split; [exact H1 |]. split; [exact H2 |].
  apply list_eq. intros k.
  destruct k as [| [| [| [| k]]]]; [exact E0 | exact E1 | exact E2 | exact E3 |].
  by_compute.
Defined.

(* ================================================================== *)
(** ** [Interface.randomColour] *)
(* ================================================================== *)

Lemma hex_fixed_zero (k : nat) : hex_fixed k 0 = replicate k "0"%char.
Proof.
  induction k as [| k IH]; [done |].
  cbn [hex_fixed]. change (0 / 16)%Z with 0%Z. rewrite IH.
  change [hex_digit (0 mod 16)] with (replicate 1 "0"%char).
  rewrite <- replicate_add. by replace (k + 1)%nat with (S k) by lia.
Qed.

Lemma hex_fixed_small (k : nat) (n : Z) :
  (0 <= n < 16)%Z -> hex_fixed (S k) n = replicate k "0"%char ++ [hex_digit n].
Proof.
  intros Hn. cbn [hex_fixed].
  by rewrite Z.div_small, Z.mod_small, hex_fixed_zero by lia.
Qed.

Lemma hex_digits_S (fuel : nat) (n : Z) :
  hex_digits (S fuel) n
  = if (n <? 16)%Z then [hex_digit n]
    else hex_digits fuel (n / 16) ++ [hex_digit (n mod 16)].
Proof. reflexivity. Qed.

(** Padding the digits of [n] with zeros gives its fixed-width digits. *)
Lemma hex_digits_pad (fuel : nat) :
  forall (k : nat) (n : Z),
    (0 <= n < 16 ^ Z.of_nat (S fuel))%Z -> (0 <= n < 16 ^ Z.of_nat (S k))%Z ->
    (1 <= length (hex_digits (S fuel) n) <= S k)%nat
    /\ replicate (S k - length (hex_digits (S fuel) n)) "0"%char
         ++ hex_digits (S fuel) n
       = hex_fixed (S k) n.
Proof.
  induction fuel as [| fuel IH]; intros k n Hf Hk; rewrite hex_digits_S.
  - change (16 ^ Z.of_nat 1)%Z with 16%Z in Hf.
    rewrite (proj2 (Z.ltb_lt n 16)) by lia. cbn [length].
    split; [lia |]. rewrite hex_fixed_small by lia.
    by replace (S k - 1)%nat with k by lia.
  - destruct (n <? 16)%Z eqn:E.
    + apply Z.ltb_lt in E. cbn [length].
      split; [lia |]. rewrite hex_fixed_small by lia.
      by replace (S k - 1)%nat with k by lia.
    + apply Z.ltb_ge in E.
      destruct k as [| k].
      { change (16 ^ Z.of_nat 1)%Z with 16%Z in Hk. lia. }
      assert (Hf' : (0 <= n / 16 < 16 ^ Z.of_nat (S fuel))%Z).
      { split; [apply Z.div_pos; lia |]. apply Z.div_lt_upper_bound; [lia |].
        rewrite <- Z.pow_succ_r by lia. rewrite <- Nat2Z.inj_succ. lia. }
      assert (Hk' : (0 <= n / 16 < 16 ^ Z.of_nat (S k))%Z).
      { split; [apply Z.div_pos; lia |]. apply Z.div_lt_upper_bound; [lia |].
        rewrite <- Z.pow_succ_r by lia. rewrite <- Nat2Z.inj_succ. lia. }
      destruct (IH k (n / 16)%Z Hf' Hk') as [Hlen Epad].
      rewrite length_app. cbn [length]. split; [lia |].
      change (hex_fixed (S (S k)) n)
        with (hex_fixed (S k) (n / 16) ++ [hex_digit (n mod 16)]).
      rewrite <- Epad, <- app_assoc. do 2 f_equal. lia.
Qed.

Lemma length_string_of_list_ascii (l : list ascii) :
  String.length (string_of_list_ascii l) = length l.
Proof. induction l as [| c l IH]; [done |]. cbn. by rewrite IH. Qed.

Lemma string_of_list_ascii_app (l1 l2 : list ascii) :
  string_of_list_ascii (l1 ++ l2)
  = (string_of_list_ascii l1 ++ string_of_list_ascii l2)%string.
Proof. induction l1 as [| c l1 IH]; [done |]. cbn. by rewrite IH. Qed.

Lemma log2_fuel (n : Z) :
  (0 <= n)%Z -> (0 <= n < 16 ^ Z.of_nat (S (Z.to_nat (Z.log2 n))))%Z.
Proof.
  intros Hn. split; [exact Hn |].
  pose proof (Z.log2_nonneg n) as HL.
  rewrite Nat2Z.inj_succ, Z2Nat.id by lia.
  destruct (Z.eq_dec n 0%Z) as [-> | Hne].
  - change (Z.log2 0) with 0%Z. lia.
  - pose proof (Z.log2_spec n ltac:(lia)) as [_ Hlt].
    eapply Z.lt_le_trans; [exact Hlt |].
    apply Z.pow_le_mono_l. lia.
Qed.

(** [n.toString(16).padStart(k, "0")] for [0 <= n < 16^k]. *)
Lemma padStart_toString16 (k : nat) (n : Z) :
  (0 <= n < 16 ^ Z.of_nat (S k))%Z ->
  padStart (S k) "0" (toString16 n) = string_of_list_ascii (hex_fixed (S k) n).
Proof.
  intros Hn. unfold toString16.
  rewrite (proj2 (Z.ltb_ge n 0)) by lia.
  destruct (hex_digits_pad _ k n (log2_fuel n (proj1 Hn)) Hn) as [_ Epad].
  unfold padStart. rewrite length_string_of_list_ascii, <- string_of_list_ascii_app.
  by rewrite Epad.
Qed.

Lemma digit_value_hex_digit (d : Z) : (0 <= d < 16)%Z -> digit_value (hex_digit d) = d.
Proof.
  intros Hd.
  assert (H : (d = 0 \/ d = 1 \/ d = 2 \/ d = 3 \/ d = 4 \/ d = 5 \/ d = 6 \/ d = 7
               \/ d = 8 \/ d = 9 \/ d = 10 \/ d = 11 \/ d = 12 \/ d = 13 \/ d = 14
               \/ d = 15)%Z) by lia.
  repeat (destruct H as [-> | H]; [reflexivity |]). by subst.
Qed.

Lemma hex_value_app (l : list ascii) (c : ascii) :
  hex_value (l ++ [c]) = (16 * hex_value l + digit_value c)%Z.
Proof. unfold hex_value. by rewrite foldl_app. Qed.

(** The fixed-width digits read back as the number. *)
Lemma hex_value_fixed (k : nat) :
  forall n, (0 <= n < 16 ^ Z.of_nat k)%Z -> hex_value (hex_fixed k n) = n.
Proof.
  induction k as [| k IH]; intros n Hn.
  - change (16 ^ Z.of_nat 0)%Z with 1%Z in Hn. cbn. lia.
  - cbn [hex_fixed]. rewrite hex_value_app.
    rewrite digit_value_hex_digit by (apply Z.mod_pos_bound; lia).
    rewrite IH.
    + pose proof (Z.div_mod n 16 ltac:(lia)). lia.
    + split; [apply Z.div_pos; lia |]. apply Z.div_lt_upper_bound; [lia |].
      rewrite <- Z.pow_succ_r by lia. rewrite <- Nat2Z.inj_succ. lia.
Qed.

(** [r * 0xFFFFFF << 0] for a value [r] of [Math.random()]. *)
Lemma colour_number (r : Qc) :
  0 <= r -> r < 1 ->
  ToInt32 (Fin r * ofZ 16777215)%num = Qfloor (r * QcZ 16777215)%Qc
  /\ (0 <= Qfloor (r * QcZ 16777215)%Qc <= 16777214)%Z.
Proof.
  intros H0 H1.
  pose proof (floor_scaled r 16777215 H0 H1 ltac:(lia)) as Hfl.
  split; [| lia].
  change (Fin r * ofZ 16777215)%num with (Fin (r * QcZ 16777215)).
  assert (Hlo : (0 <= this (r * QcZ 16777215))%Q).
  { rewrite this_mul_QcZ. apply Qmult_le_0_compat; [exact H0 | done]. }
  assert (Htr : truncate (r * QcZ 16777215) = Qfloor (r * QcZ 16777215)%Qc).
  { unfold truncate, Qfloor. destruct (this (r * QcZ 16777215)) as [n d] eqn:E.
    cbn [Qnum Qden]. apply Z.quot_div_nonneg; [| done].
    unfold Qle in Hlo. cbn in Hlo. lia. }
  cbn [ToInt32]. rewrite Htr.
  rewrite Z.mod_small by lia. lia.
Qed.

(** X19. [randomColour] always returns a colour of the form [#rrggbb]:
    for a value [r] of [Math.random()] in [[0, 1)] the result has seven
    characters, ["#"] followed by the six lower-case hexadecimal digits of
    [n = floor(r * 0xFFFFFF)], zeros in front included; the digits read
    back as [n], and since [n <= 0xFFFFFE] the colour is never [#ffffff]. *)
Theorem randomColour_format (r : Qc) :
  0 <= r -> r < 1 ->
  (0 <= Qfloor (r * QcZ 16777215)%Qc <= 16777214)%Z
  /\ randomColour r
     = String "#" (string_of_list_ascii (hex_fixed 6 (Qfloor (r * QcZ 16777215)%Qc)))
  /\ String.length (randomColour r) = 7%nat
  /\ hex_value (hex_fixed 6 (Qfloor (r * QcZ 16777215)%Qc))
     = Qfloor (r * QcZ 16777215)%Qc
  /\ randomColour r <> "#ffffff"%string.
Proof.
  intros H0 H1. destruct (colour_number r H0 H1) as [En Hn].
  assert (Hn' : (0 <= Qfloor (r * QcZ 16777215)%Qc < 16 ^ Z.of_nat 6)%Z).
  { change (16 ^ Z.of_nat 6)%Z with 16777216%Z. lia. }
  assert (E : randomColour r
              = String "#" (string_of_list_ascii
                              (hex_fixed 6 (Qfloor (r * QcZ 16777215)%Qc)))).
  { unfold randomColour. rewrite En. by rewrite padStart_toString16. }
  pose proof (hex_value_fixed 6 _ Hn') as Hv.
  split; [exact Hn |]. split; [exact E |]. split; [| split; [exact Hv |]].
  - rewrite E. cbn [String.length]. rewrite length_string_of_list_ascii.
    clear. generalize (Qfloor (r * QcZ 16777215)%Qc). intros n.
    cbn [hex_fixed]. by rewrite !length_app.
  - rewrite E. intros Heq.
    apply (f_equal list_ascii_of_string) in Heq.
    cbn [list_ascii_of_string] in Heq.
    rewrite list_ascii_of_string_of_list_ascii in Heq.
    apply (f_equal (@List.tl ascii)) in Heq. cbn [List.tl] in Heq.
    rewrite Heq in Hv. change (16777215 = Qfloor (r * QcZ 16777215)%Qc)%Z in Hv. lia.
Qed.

Lemma randomColour_format_witness :
  0 <= Q2Qc (1 # 100000) /\ Q2Qc (1 # 100000) < 1
  /\ randomColour (Q2Qc (1 # 100000)) = "#0000a7"%string
  /\ randomColour (Q2Qc (1 # 100000)) <> "#ffffff"%string.
Proof.
  assert (H0 : 0 <= Q2Qc (1 # 100000)) by by_compute.
  assert (H1 : Q2Qc (1 # 100000) < 1) by by_compute.
  destruct (randomColour_format _ H0 H1) as (_ & E & _ & _ & Hne).
  split; [exact H0 |]. split; [exact H1 |]. split; [| exact Hne].
  rewrite E. reflexivity.
Defined.

(* ================================================================== *)
(** ** The level of detail for a hash that is not a finite number *)
(* ================================================================== *)

(** X20. The clamp does not catch a hash that is not a number: when the
    text after ["#"] is not empty and converts to NaN, [lod] is NaN.  An
    infinite value is clamped like any other: Infinity gives 512 and
    -Infinity gives 128. *)
Theorem lod_not_finite (ToNumber : string -> num) (hash : string) :
  substring1 hash <> EmptyString ->
  (ToNumber (substring1 hash) = NaN -> lod ToNumber hash = NaN)
  /\ (ToNumber (substring1 hash) = PInf -> lod ToNumber hash = ofZ 512)
  /\ (ToNumber (substring1 hash) = NInf -> lod ToNumber hash = ofZ 128).
Proof.
  intros Hne. unfold lod.
  destruct (substring1 hash) as [| c rest]; [done |].
  repeat split; intros ->; reflexivity.
Qed.

Lemma lod_not_finite_witness :
  substring1 "#abc" <> EmptyString
  /\ ToNumber_digits (substring1 "#abc") = NaN
  /\ lod ToNumber_digits "#abc" = NaN.
Proof.
  assert (Hne : substring1 "#abc" <> EmptyString) by discriminate.
  assert (Hn : ToNumber_digits (substring1 "#abc") = NaN) by reflexivity.
  split; [exact Hne |]. split; [exact Hn |].
  exact (proj1 (lod_not_finite ToNumber_digits "#abc" Hne) Hn).
Defined.
